(** * A shallow embedding of [mung.torch_ext.optim.Adagrad] and of
      [mung.config.torch_ext.learn.train_from_config].

    Tensors are flat (row-major) lists of reals; the numeric operations of
    the optimizer are taken over [R], so that the floating-point tolerance
    of the source becomes exact equality here.  A Python exception leaves
    every mutation made before it in place: the stepping functions return
    the mutated state together with the exception raised, if any. *)

From Stdlib Require Import Reals Lra Lia Arith Bool Permutation.
From Stdlib Require String.
From Stdlib Require Import List.
Import ListNotations.
Open Scope R_scope.

(** ** Tensors *)

Definition tensor := list R.

(** Element-wise combination of two tensors of the same shape. *)
Fixpoint map2 (f : R -> R -> R) (xs ys : tensor) : tensor :=
  match xs, ys with
  | x :: xs', y :: ys' => f x y :: map2 f xs' ys'
  | _, _ => []
  end.

(** [t.new().resize_as_(t).zero_()] *)
Definition zeros_like (t : tensor) : tensor := map (fun _ => 0) t.

(** [torch.sign] *)
Definition sign (x : R) : R :=
  if Rlt_dec x 0 then -1 else if Rlt_dec 0 x then 1 else 0.

(** Updates coordinate [i] in place; out-of-range coordinates do not occur
    for the well-formed sparse tensors considered below. *)
Fixpoint upd (l : tensor) (i : nat) (f : R -> R) : tensor :=
  match l, i with
  | [], _ => []
  | x :: l', O => f x :: l'
  | x :: l', S i' => x :: upd l' i' f
  end.

(** ** Gradients: dense, or sparse as (flat index, value) entries of a
    tensor with [n] coordinates. *)

Inductive Grad :=
| Dense (g : tensor)
| Sparse (n : nat) (entries : list (nat * R)).

Definition is_sparse (g : Grad) : bool :=
  match g with Sparse _ _ => true | Dense _ => false end.

(** Sum of the values a sparse gradient stores at coordinate [i]. *)
Definition sum_at (i : nat) (es : list (nat * R)) : R :=
  fold_right (fun e acc => if Nat.eqb (fst e) i then snd e + acc else acc) 0 es.

(** [grad.coalesce()]: sorted, unique indices, duplicate values summed. *)
Definition coalesce (n : nat) (es : list (nat * R)) : list (nat * R) :=
  flat_map (fun i => if existsb (fun e => Nat.eqb (fst e) i) es
                     then [(i, sum_at i es)] else []) (seq 0 n).

(** [grad.to_dense()] *)
Definition to_dense (n : nat) (es : list (nat * R)) : tensor :=
  map (fun i => sum_at i es) (seq 0 n).

(** The value of a gradient as a dense tensor. *)
Definition grad_value (g : Grad) : tensor :=
  match g with Dense t => t | Sparse n es => to_dense n es end.

(** ** Parameters, per-parameter state, groups and the optimizer *)

Record Param := mkParam { shape : list nat; data : tensor }.

Record OptState := mkState
  { step_count : nat; sum : tensor; avg : tensor; zeros : tensor }.

(** One entry of [group['params']]: the parameter, its [.grad] (absent is
    [None]) and its entry of [self.state] ([None] is the empty dict that
    the state defaultdict hands out for a parameter never reset). *)
Record Slot := mkSlot { param : Param; grad : option Grad; state : option OptState }.

Record Group := mkGroup
  { lr : R; lr_decay : R; weight_decay : R; l1_C : R; params : list Slot }.

Record Adagrad := mkAdagrad
  { param_groups : list Group; no_bias_l1 : bool; no_non_singleton_l1 : bool }.

(** The exceptions [step] can raise. *)
Inductive PyErr :=
| KeyError            (* [state['step']] on a parameter without state *)
| UnsupportedOperation (* weight decay with a sparse gradient *)
| ShapeMismatch       (* gradient shape differs from the parameter's *)
| IndexError          (* [p.data.size(0)] on a 0-dimensional parameter *)
| ZeroDivisionError   (* line 82 when [1 + (step - 1) * lr_decay] is 0 *)
| SparseUnsupported.  (* [state['sum'].addcmul_(1, grad, grad)] on a sparse [grad] *)

Definition eps : R := 1e-10.

Definition Req_b (x y : R) : bool := if Req_EM_T x y then true else false.

(** ** Tensor operations used by [step] *)

(** [t.add_(alpha, t2)] *)
Definition add (t : tensor) (alpha : R) (t2 : tensor) : tensor :=
  map2 (fun x y => x + alpha * y) t t2.

(** [t.addcmul_(value, t1, t2)] *)
Definition addcmul (t : tensor) (value : R) (t1 t2 : tensor) : tensor :=
  map2 (fun x y => x + y) t (map2 (fun a b => value * a * b) t1 t2).

(** [t.addcdiv_(value, t1, t2)] *)
Definition addcdiv (t : tensor) (value : R) (t1 t2 : tensor) : tensor :=
  map2 (fun x y => x + y) t (map2 (fun a b => value * a / b) t1 t2).

(** [t.add_(alpha, make_sparse(values))] for coalesced entries; an empty
    [make_sparse] (no entries) adds nothing. *)
Definition add_sparse (t : tensor) (alpha : R) (es : list (nat * R)) : tensor :=
  fold_left (fun acc e => upd acc (fst e) (fun x => x + alpha * snd e)) es t.

(** The shape check the tensor operations perform on the gradient. *)
Definition grad_fits (g : Grad) (p : Param) : bool :=
  match g with
  | Dense t => Nat.eqb (length t) (length (data p))
  | Sparse n es =>
      Nat.eqb n (length (data p)) && forallb (fun e => Nat.ltb (fst e) n) es
  end.

Inductive result (A : Type) := Ok (a : A) | Err (e : PyErr).
Arguments Ok {A} a.
Arguments Err {A} e.

(** The condition of line 83, with Python's precedence ([and] binds tighter
    than [or]) and short-circuiting:
    [l1_C != 0 and ((not nb) or (len(size) > 1 or size(0) > 1)
                                 and ((not nns) or size(0) == 1))]. *)
Definition l1_eligible (nb nns : bool) (l1 : R) (sh : list nat) : result bool :=
  if Req_b l1 0 then Ok false
  else if negb nb then Ok true
  else
    let bias_test :=
      if Nat.ltb 1 (length sh) then Ok true
      else match sh with [] => Err IndexError | d0 :: _ => Ok (Nat.ltb 1 d0) end in
    match bias_test with
    | Err e => Err e
    | Ok false => Ok false
    | Ok true =>
        if negb nns then Ok true
        else match sh with [] => Err IndexError | d0 :: _ => Ok (Nat.eqb d0 1) end
    end.

(** ** [step] on one parameter (the body of the inner loop) *)

Definition l1_update (clr l1 : R) (k : nat) (st : OptState) (g : tensor)
  : tensor * OptState :=
  let avg' := add (avg st) 1 g in
  let sum' := addcmul (sum st) 1 g g in
  let g_bar := map (fun a => a / INR k) avg' in
  let adapt := map (fun s => sqrt s + eps) sum' in
  let sparsity := map2 Rmax (map (fun gb => Rabs gb - l1) g_bar) (zeros st) in
  (map2 Rmult (map2 (fun gb ad => sign (- gb) * (clr * INR k / ad)) g_bar adapt) sparsity,
   mkState k sum' avg' (zeros st)).

Definition sparse_update (clr : R) (k : nat) (st : OptState) (p : tensor)
    (n : nat) (es : list (nat * R)) : tensor * OptState :=
  let cs := coalesce n es in
  let sum' := add_sparse (sum st) 1 (map (fun e => (fst e, snd e ^ 2)) cs) in
  let upd_values :=
    map (fun e => (fst e, snd e / (sqrt (nth (fst e) sum' 0) + eps))) cs in
  (add_sparse p (- clr) upd_values, mkState k sum' (avg st) (zeros st)).

Definition dense_update (clr : R) (k : nat) (st : OptState) (p g : tensor)
  : tensor * OptState :=
  let sum' := addcmul (sum st) 1 g g in
  let std := map (fun s => sqrt s + eps) sum' in
  (addcdiv p (- clr) g std, mkState k sum' (avg st) (zeros st)).

Definition step_slot (grp : Group) (nb nns : bool) (s : Slot) : Slot * option PyErr :=
  match grad s with
  | None => (s, None)
  | Some gr =>
    match state s with
    | None => (s, Some KeyError)
    | Some st =>
      let k := S (step_count st) in
      let st1 := mkState k (sum st) (avg st) (zeros st) in
      let s1 := mkSlot (param s) (grad s) (Some st1) in
      let p := param s in
      let wd := weight_decay grp in
      let wd_grad :=
        if Req_b wd 0 then Ok gr
        else match gr with
             | Sparse _ _ => Err UnsupportedOperation
             | Dense t => Ok (Dense (add t wd (data p)))
             end in
      match wd_grad with
      | Err e => (s1, Some e)
      | Ok gr' =>
        if negb (grad_fits gr p) then (s1, Some ShapeMismatch) else
        let den := 1 + (INR k - 1) * lr_decay grp in
        if Req_b den 0 then (s1, Some ZeroDivisionError) else
        let clr := lr grp / den in
        let finish r :=
          (mkSlot (mkParam (shape p) (fst r)) (grad s) (Some (snd r)), None) in
        match l1_eligible nb nns (l1_C grp) (shape p) with
        | Err e => (s1, Some e)
        | Ok true =>
          match gr' with
          | Dense g => finish (l1_update clr (l1_C grp) k st g)
          | Sparse n es =>
            (* [state['avg'].add_(1, grad)] succeeds, [addcmul_] raises *)
            (mkSlot p (grad s)
               (Some (mkState k (sum st) (add (avg st) 1 (to_dense n es)) (zeros st))),
             Some SparseUnsupported)
          end
        | Ok false =>
          match gr' with
          | Sparse n es => finish (sparse_update clr k st (data p) n es)
          | Dense g => finish (dense_update clr k st (data p) g)
          end
        end
      end
    end
  end.

(** ** The loops of [step], [reset] and [get_step] *)

Fixpoint step_slots (grp : Group) (nb nns : bool) (ss : list Slot)
  : list Slot * option PyErr :=
  match ss with
  | [] => ([], None)
  | s :: rest =>
    let '(s', err) := step_slot grp nb nns s in
    match err with
    | Some e => (s' :: rest, Some e)
    | None => let '(rest', err') := step_slots grp nb nns rest in (s' :: rest', err')
    end
  end.

Definition set_params (grp : Group) (ss : list Slot) : Group :=
  mkGroup (lr grp) (lr_decay grp) (weight_decay grp) (l1_C grp) ss.

Fixpoint step_groups (nb nns : bool) (gs : list Group) : list Group * option PyErr :=
  match gs with
  | [] => ([], None)
  | grp :: rest =>
    let '(ss', err) := step_slots grp nb nns (params grp) in
    match err with
    | Some e => (set_params grp ss' :: rest, Some e)
    | None =>
      let '(rest', err') := step_groups nb nns rest in (set_params grp ss' :: rest', err')
    end
  end.

(** A closure reads and may mutate the optimizer (typically recomputing the
    gradients) and returns the loss. *)
Definition Closure := Adagrad -> Adagrad * R.

(** [step(closure)]: the optimizer after the call, and either the returned
    value ([None] when no closure is given) or the exception raised. *)
Definition step (closure : option Closure) (o : Adagrad)
  : Adagrad * result (option R) :=
  let '(o1, loss) :=
    match closure with
    | None => (o, None)
    | Some f => let '(o', l) := f o in (o', Some l)
    end in
  let '(gs', err) := step_groups (no_bias_l1 o1) (no_non_singleton_l1 o1) (param_groups o1) in
  (mkAdagrad gs' (no_bias_l1 o1) (no_non_singleton_l1 o1),
   match err with None => Ok loss | Some e => Err e end).

Definition reset_slot (s : Slot) : Slot :=
  let t := data (param s) in
  mkSlot (param s) (grad s) (Some (mkState 0 (zeros_like t) (zeros_like t) (zeros_like t))).

Definition reset (o : Adagrad) : Adagrad :=
  mkAdagrad (map (fun grp => set_params grp (map reset_slot (params grp))) (param_groups o))
    (no_bias_l1 o) (no_non_singleton_l1 o).




(** [Adagrad(params, lr, lr_decay, weight_decay, l1_C, no_bias_l1,
    no_non_singleton_l1)] with one parameter group.  The model accepts an
    empty [ps]; torch's [Optimizer.__init__] raises [ValueError] on it, so
    nothing below relies on [ps] being empty. *)
Definition make_adagrad (ps : list Slot) (lr_ lr_decay_ wd l1 : R) (nb nns : bool) : Adagrad :=
  reset (mkAdagrad [mkGroup lr_ lr_decay_ wd l1 ps] nb nns).

(** ** Readings of the spec compared with the code *)

(** The L1 eligibility test grouped as the spec states it:
    [l1_C <> 0 /\ ((not nb) \/ rank > 1 \/ size0 > 1) /\ ((not nns) \/ size0 = 1)]. *)
Definition spec_l1_eligible (nb nns : bool) (l1 : R) (sh : list nat) : bool :=
  let rank_gt1 := Nat.ltb 1 (length sh) in
  let size0 := hd 0%nat sh in
  negb (Req_b l1 0)
  && (negb nb || (rank_gt1 || Nat.ltb 1 size0))
  && (negb nns || Nat.eqb size0 1).

(** The spec's L1 value, coordinate by coordinate, from the accumulated
    [sum_sq_grad] and gradient sum:
    [sign(-g_bar) * (clr * step_count / adapt) * max(|g_bar| - l1_C, 0)]. *)
Definition spec_l1_value (clr l1 : R) (k : nat) (sum' avg' : tensor) : tensor :=
  map2 (fun s a =>
          let g_bar := a / INR k in
          sign (- g_bar) * (clr * INR k / (sqrt s + 1e-10)) * Rmax (Rabs g_bar - l1) 0)
       sum' avg'.

(** The state [reset] establishes for a parameter and [step] keeps:
    tensors of the parameter's size, [zeros] all zero. *)
Definition wf_state (p : Param) (st : OptState) : Prop :=
  length (sum st) = length (data p) /\ length (avg st) = length (data p)
  /\ zeros st = repeat 0 (length (data p)).

(** ** Lemmas on the tensor operations *)

Lemma length_map2 f xs ys : length (map2 f xs ys) = Nat.min (length xs) (length ys).
Proof.
  revert ys; induction xs as [|x xs IH]; intros [|y ys]; simpl; auto.
Qed.

Lemma nth_map2 f xs ys i d :
  (i < length xs)%nat -> (i < length ys)%nat ->
  nth i (map2 f xs ys) d = f (nth i xs d) (nth i ys d).
Proof.
  revert ys i; induction xs as [|x xs IH]; intros [|y ys] [|i] H1 H2;
    simpl in *; try lia; auto.
  apply IH; lia.
Qed.

Lemma length_upd l i f : length (upd l i f) = length l.
Proof.
  revert i; induction l as [|x l IH]; intros [|i]; simpl; auto.
Qed.

Lemma nth_upd l i f j d :
  nth j (upd l i f) d =
  if Nat.eqb i j then (if Nat.ltb j (length l) then f (nth j l d) else nth j l d)
  else nth j l d.
Proof.
  revert i j; induction l as [|x l IH]; intros [|i] [|j]; simpl; auto;
    try (destruct (Nat.eqb i j); reflexivity).
Qed.

Lemma length_add_sparse t alpha es : length (add_sparse t alpha es) = length t.
Proof.
  unfold add_sparse; revert t; induction es as [|e es IH]; intros t; simpl; auto.
  rewrite IH, length_upd; reflexivity.
Qed.

Lemma length_to_dense n es : length (to_dense n es) = n.
Proof. unfold to_dense; rewrite length_map, length_seq; reflexivity. Qed.

Create Rewrite HintDb tensor.
#[export] Hint Rewrite length_map2 length_map length_upd length_add_sparse
  length_to_dense repeat_length length_seq : tensor.

Lemma Req_b_true x : Req_b x x = true.
Proof. unfold Req_b; destruct (Req_EM_T x x); congruence. Qed.

Lemma Req_b_false x y : x <> y -> Req_b x y = false.
Proof. unfold Req_b; destruct (Req_EM_T x y); congruence. Qed.

Lemma Req_b_eq x y : Req_b x y = true -> x = y.
Proof. unfold Req_b; destruct (Req_EM_T x y); congruence. Qed.

(** Discharges the test of line 82 when its denominator is visibly nonzero. *)
Ltac den_nonzero :=
  match goal with
  | |- context [Req_b (1 + (INR ?k - 1) * ?d) 0] =>
      rewrite (Req_b_false (1 + (INR k - 1) * d) 0) by (simpl; lra)
  end.

Lemma grad_fits_dense_len t p :
  grad_fits (Dense t) p = true -> length t = length (data p).
Proof. simpl; intros H; apply Nat.eqb_eq in H; exact H. Qed.

Lemma grad_fits_value_len g p :
  grad_fits g p = true -> length (grad_value g) = length (data p).
Proof.
  destruct g as [t|n es]; simpl; intros H.
  - apply Nat.eqb_eq in H; exact H.
  - apply andb_true_iff in H as [H _]; apply Nat.eqb_eq in H.
    rewrite length_to_dense; exact H.
Qed.

(** ** C1: which parameters take the L1 path *)

(** C1 (code_bug).  With [no_bias_l1 = False], [no_non_singleton_l1 = True],
    [l1_C = 1/2] and a parameter of shape [2 x 1] (first dimension 2), the
    code's test of line 83 selects the L1 path, while the test grouped as
    the spec states it does not. *)
Theorem l1_eligible_precedence_diverges :
  l1_eligible false true (1/2) [2%nat; 1%nat] = Ok true
  /\ spec_l1_eligible false true (1/2) [2%nat; 1%nat] = false.
Proof.
  assert (H : 1/2 <> 0) by lra.
  unfold l1_eligible, spec_l1_eligible; rewrite (Req_b_false _ _ H); simpl.
  split; reflexivity.
Qed.

(** With the default flags the two groupings agree. *)
Lemma l1_eligible_defaults_agree l1 d0 ds :
  l1_eligible true true l1 (d0 :: ds) = Ok (spec_l1_eligible true true l1 (d0 :: ds)).
Proof.
  unfold l1_eligible, spec_l1_eligible; simpl.
  destruct (Req_b l1 0); simpl; [reflexivity|].
  destruct ds as [|d1 ds]; simpl.
  - destruct (Nat.ltb 1 d0); reflexivity.
  - destruct (Nat.ltb 1 (S (length ds))) eqn:E; simpl.
    + reflexivity.
    + destruct (Nat.ltb 1 d0); reflexivity.
Qed.

(** ** C2: the L1 path *)

Lemma nth_map_lt (f : R -> R) l i d :
  (i < length l)%nat -> nth i (map f l) d = f (nth i l d).
Proof.
  revert i; induction l as [|x l IH]; intros [|i] H; simpl in *; try lia; auto.
  apply IH; lia.
Qed.

Ltac len_solve := autorewrite with tensor in *; lia.

Ltac nth_simpl :=
  repeat first
    [ rewrite nth_map2 by len_solve
    | rewrite nth_map_lt by len_solve
    | rewrite nth_repeat_lt by len_solve ].

(** The L1 update from the gradient [g], written with the accumulations of
    the spec ([avg_grad += g], [sum_sq_grad += g * g]). *)
Lemma l1_update_eq clr l1 k st g n :
  length g = n -> length (sum st) = n -> length (avg st) = n ->
  zeros st = repeat 0 n ->
  let sum' := map2 (fun s x => s + x * x) (sum st) g in
  let avg' := map2 (fun a x => a + x) (avg st) g in
  l1_update clr l1 k st g = (spec_l1_value clr l1 k sum' avg', mkState k sum' avg' (zeros st)).
Proof.
  intros Hg Hs Ha Hz sum' avg'.
  assert (Esum : addcmul (sum st) 1 g g = sum').
  { apply nth_ext with (d := 0) (d' := 0); [unfold addcmul, sum'; len_solve|].
    intros i Hi; unfold addcmul, sum' in *; autorewrite with tensor in Hi.
    nth_simpl; ring. }
  assert (Eavg : add (avg st) 1 g = avg').
  { apply nth_ext with (d := 0) (d' := 0); [unfold add, avg'; len_solve|].
    intros i Hi; unfold add, avg' in *; autorewrite with tensor in Hi.
    nth_simpl; ring. }
  unfold l1_update; rewrite Esum, Eavg; f_equal.
  apply nth_ext with (d := 0) (d' := 0);
    [unfold spec_l1_value, sum', avg'; rewrite Hz; len_solve|].
  intros i Hi; unfold spec_l1_value, sum', avg' in *; rewrite Hz in *.
  autorewrite with tensor in Hi.
  nth_simpl; reflexivity.
Qed.

(** C2 (corrected).  On the L1 path ([weight_decay = 0], the test of line 83
    true), with [den = 1 + (k - 1) * lr_decay] and [clr = lr / den]:
    if [den = 0], line 82 raises [ZeroDivisionError] after the step count
    was incremented; otherwise, on a dense gradient [g] the step sets
    [avg_grad += g], [sum_sq_grad += g * g], the step count to [k] and the
    parameter to
    [sign(-g_bar) * (clr * k / (sqrt(sum_sq_grad) + 1e-10)) * max(|g_bar| - l1_C, 0)]
    with [g_bar = avg_grad / k], and the parameter's prior value does not
    enter the result; on a sparse gradient [state['avg'].add_(1, grad)] is
    done and [state['sum'].addcmul_(1, grad, grad)] raises, the parameter
    left as it was. *)
Theorem l1_step_replaces grp nb nns p g st :
  weight_decay grp = 0 ->
  l1_eligible nb nns (l1_C grp) (shape p) = Ok true ->
  grad_fits g p = true ->
  wf_state p st ->
  let k := S (step_count st) in
  let den := 1 + (INR k - 1) * lr_decay grp in
  let clr := lr grp / den in
  (den = 0 ->
   step_slot grp nb nns (mkSlot p (Some g) (Some st)) =
   (mkSlot p (Some g) (Some (mkState k (sum st) (avg st) (zeros st))), Some ZeroDivisionError))
  /\ (den <> 0 -> forall t, g = Dense t ->
      let sum' := map2 (fun s x => s + x * x) (sum st) t in
      let avg' := map2 (fun a x => a + x) (avg st) t in
      step_slot grp nb nns (mkSlot p (Some g) (Some st)) =
        (mkSlot (mkParam (shape p) (spec_l1_value clr (l1_C grp) k sum' avg')) (Some g)
                (Some (mkState k sum' avg' (zeros st))), None)
      /\ (forall d1 d2, length d1 = length (data p) -> length d2 = length (data p) ->
          step_slot grp nb nns (mkSlot (mkParam (shape p) d1) (Some g) (Some st))
          = step_slot grp nb nns (mkSlot (mkParam (shape p) d2) (Some g) (Some st))))
  /\ (den <> 0 -> forall n es, g = Sparse n es ->
      step_slot grp nb nns (mkSlot p (Some g) (Some st)) =
      (mkSlot p (Some g) (Some (mkState k (sum st) (add (avg st) 1 (to_dense n es)) (zeros st))),
       Some SparseUnsupported)).
Proof.
  intros Hwd Hel Hfit [Hs [Ha Hz]] k den clr.
  split; [|split].
  - intros H0; unfold den, k in H0.
    unfold step_slot; cbn [grad state param].
    rewrite Hwd, Req_b_true, Hfit; cbn [negb].
    rewrite H0, Req_b_true; reflexivity.
  - intros Hd t -> sum' avg'; unfold den, k in Hd.
    assert (Hg := grad_fits_dense_len _ _ Hfit).
    assert (Gen : forall d, length d = length (data p) ->
      step_slot grp nb nns (mkSlot (mkParam (shape p) d) (Some (Dense t)) (Some st)) =
      (mkSlot (mkParam (shape p) (spec_l1_value clr (l1_C grp) k sum' avg')) (Some (Dense t))
              (Some (mkState k sum' avg' (zeros st))), None)).
    { intros d Hd'.
      assert (Hfit' : grad_fits (Dense t) (mkParam (shape p) d) = true).
      { simpl in *; rewrite Hd'; exact Hfit. }
      unfold step_slot; cbn [grad state param data shape].
      rewrite Hwd, Req_b_true, Hfit'; cbn [negb].
      rewrite (Req_b_false _ _ Hd); cbn [shape]; rewrite Hel.
      rewrite (l1_update_eq _ _ _ _ _ (length (data p)) Hg Hs Ha Hz).
      reflexivity. }
    split.
    + destruct p as [sh d]; apply Gen; reflexivity.
    + intros d1 d2 H1 H2; rewrite (Gen d1 H1), (Gen d2 H2); reflexivity.
  - intros Hd n es ->; unfold den, k in Hd.
    unfold step_slot; cbn [grad state param].
    rewrite Hwd, Req_b_true, Hfit; cbn [negb].
    rewrite (Req_b_false _ _ Hd), Hel; reflexivity.
Qed.

(** A parameter of shape [2 x 1] after [reset], with [no_bias_l1 = False]. *)
Definition ex_l1_group : Group := mkGroup (1/10) 0 0 (1/2) [].

Lemma l1_step_replaces_witness :
  weight_decay ex_l1_group = 0
  /\ l1_eligible false true (l1_C ex_l1_group) (shape (mkParam [2%nat; 1%nat] [3; 4])) = Ok true
  /\ grad_fits (Dense [1; 2]) (mkParam [2%nat; 1%nat] [3; 4]) = true
  /\ wf_state (mkParam [2%nat; 1%nat] [3; 4]) (mkState 0 [0; 0] [0; 0] [0; 0])
  /\ step_slot ex_l1_group false true
       (mkSlot (mkParam [2%nat; 1%nat] [3; 4]) (Some (Dense [1; 2]))
               (Some (mkState 0 [0; 0] [0; 0] [0; 0])))
     = step_slot ex_l1_group false true
       (mkSlot (mkParam [2%nat; 1%nat] [0; 0]) (Some (Dense [1; 2]))
               (Some (mkState 0 [0; 0] [0; 0] [0; 0]))).
Proof.
  assert (Hel : l1_eligible false true (l1_C ex_l1_group)
                  (shape (mkParam [2%nat; 1%nat] [3; 4])) = Ok true).
  { assert (H : 1/2 <> 0) by lra.
    unfold l1_eligible; simpl; rewrite (Req_b_false _ _ H); reflexivity. }
  assert (Hwf : wf_state (mkParam [2%nat; 1%nat] [3; 4]) (mkState 0 [0; 0] [0; 0] [0; 0])).
  { repeat split; reflexivity. }
  split; [reflexivity|]. split; [exact Hel|]. split; [reflexivity|]. split; [exact Hwf|].
  apply (proj2 (proj1 (proj2 (l1_step_replaces ex_l1_group false true
                  (mkParam [2%nat; 1%nat] [3; 4]) (Dense [1; 2]) _ eq_refl Hel eq_refl Hwf))
                  ltac:(simpl; lra) [1; 2] eq_refl)); reflexivity.
Defined.

(** C2 as stated fails on a sparse gradient: with the default flags, a
    parameter of shape [1 x 3] is L1-eligible for [l1_C = 1/2], and its
    step raises at [addcmul_] instead of setting the parameter. *)
Definition ex_l1_sparse_slot : Slot :=
  mkSlot (mkParam [1%nat; 3%nat] [1; 2; 3]) (Some (Sparse 3 [(0%nat, 1)]))
         (Some (mkState 0 [0; 0; 0] [0; 0; 0] [0; 0; 0])).

Lemma l1_step_sparse_counterexample :
  step_slot ex_l1_group true true ex_l1_sparse_slot
  = (mkSlot (mkParam [1%nat; 3%nat] [1; 2; 3]) (Some (Sparse 3 [(0%nat, 1)]))
       (Some (mkState 1 [0; 0; 0] (add [0; 0; 0] 1 (to_dense 3 [(0%nat, 1)])) [0; 0; 0])),
     Some SparseUnsupported).
Proof.
  unfold step_slot, ex_l1_sparse_slot, ex_l1_group;
    cbn [grad state param weight_decay lr_decay l1_C step_count sum avg zeros shape data].
  rewrite Req_b_true.
  change (grad_fits (Sparse 3 [(0%nat, 1)]) (mkParam [1%nat; 3%nat] [1; 2; 3])) with true.
  cbn [negb].
  rewrite (Req_b_false (1 + (INR 1 - 1) * 0) 0) by (simpl; lra).
  unfold l1_eligible; rewrite (Req_b_false (1 / 2) 0) by lra.
  reflexivity.
Qed.

(** ** C3: sparse and dense paths *)

Lemma add_sparse_cons t alpha e es :
  add_sparse t alpha (e :: es) = add_sparse (upd t (fst e) (fun x => x + alpha * snd e)) alpha es.
Proof. reflexivity. Qed.

Lemma nth_add_sparse_seq t alpha (h : nat -> R) s m j :
  nth j (add_sparse t alpha (map (fun i => (i, h i)) (seq s m))) 0 =
  if (s <=? j) && (j <? s + m) && (j <? length t) then nth j t 0 + alpha * h j
  else nth j t 0.
Proof.
  revert s t; induction m as [|m IH]; intros s t.
  - simpl; destruct (Nat.leb_spec s j), (Nat.ltb_spec j (s + 0)); simpl;
      try lia; reflexivity.
  - cbn [seq map]; rewrite add_sparse_cons, IH; cbn [fst snd].
    rewrite length_upd, nth_upd.
    destruct (Nat.leb_spec (S s) j), (Nat.ltb_spec j (S s + m)),
      (Nat.ltb_spec j (length t)), (Nat.eqb_spec s j),
      (Nat.leb_spec s j), (Nat.ltb_spec j (s + S m)); simpl;
      subst; try lia; reflexivity.
Qed.

Lemma nth_to_dense n es j d :
  (j < n)%nat -> nth j (to_dense n es) d = sum_at j es.
Proof.
  intros Hj; unfold to_dense.
  rewrite nth_indep with (d' := sum_at 0 es) by (rewrite length_map, length_seq; exact Hj).
  change (sum_at 0 es) with ((fun i => sum_at i es) 0%nat).
  rewrite map_nth, seq_nth by exact Hj; reflexivity.
Qed.

Lemma flat_map_singleton {A B} (f : A -> list B) (g : A -> B) l :
  (forall x, In x l -> f x = [g x]) -> flat_map f l = map g l.
Proof.
  induction l as [|x l IH]; intros H; simpl; auto.
  rewrite H by (left; reflexivity); rewrite IH; auto.
  intros y Hy; apply H; right; exact Hy.
Qed.

(** When every coordinate below [n] has an entry, [coalesce] lists every
    coordinate once, in order, with its summed value. *)
Lemma coalesce_covering n es :
  (forall i, (i < n)%nat -> exists v, In (i, v) es) ->
  coalesce n es = map (fun i => (i, sum_at i es)) (seq 0 n).
Proof.
  intros Hcov; unfold coalesce; apply flat_map_singleton.
  intros i Hi; apply in_seq in Hi.
  destruct (Hcov i ltac:(lia)) as [v Hv].
  replace (existsb (fun e => Nat.eqb (fst e) i) es) with true; [reflexivity|].
  symmetry; apply existsb_exists; exists (i, v); split; [exact Hv|].
  apply Nat.eqb_refl.
Qed.

(** The sparse path on a covering gradient, coordinate by coordinate. *)
Lemma sparse_update_covering clr k st p n es :
  length p = n -> length (sum st) = n ->
  (forall i, (i < n)%nat -> exists v, In (i, v) es) ->
  let sum' := add_sparse (sum st) 1 (map (fun i => (i, sum_at i es ^ 2)) (seq 0 n)) in
  sparse_update clr k st p n es =
  (add_sparse p (- clr)
     (map (fun i => (i, sum_at i es / (sqrt (nth i sum' 0) + eps))) (seq 0 n)),
   mkState k sum' (avg st) (zeros st)).
Proof.
  intros Hp Hs Hcov sum'.
  unfold sparse_update; rewrite (coalesce_covering n es Hcov), !map_map.
  reflexivity.
Qed.

(** C3.  On a sparse gradient (of size [n], indices below [n]) whose
    entries cover every coordinate, with [weight_decay = 0] and the L1 path
    not selected, [step] on the sparse path leaves the same parameter value
    and the same state ([sum_sq_grad], step count, [avg_grad]) as [step] on
    the dense path with the equivalent dense gradient, and raises exactly
    when the dense step does; when [1 + (k - 1) * lr_decay <> 0] (line 82
    does not divide by zero) neither raises. *)
Theorem sparse_path_matches_dense grp nb nns p n es st :
  weight_decay grp = 0 ->
  l1_eligible nb nns (l1_C grp) (shape p) = Ok false ->
  n = length (data p) ->
  Forall (fun e => (fst e < n)%nat) es ->
  (forall i, (i < n)%nat -> exists v, In (i, v) es) ->
  wf_state p st ->
  let sp := step_slot grp nb nns (mkSlot p (Some (Sparse n es)) (Some st)) in
  let dn := step_slot grp nb nns (mkSlot p (Some (Dense (to_dense n es))) (Some st)) in
  param (fst sp) = param (fst dn) /\ state (fst sp) = state (fst dn) /\ snd sp = snd dn
  /\ (1 + (INR (S (step_count st)) - 1) * lr_decay grp <> 0 -> snd sp = None /\ snd dn = None).
Proof.
  intros Hwd Hel Hn Hidx Hcov [Hs [Ha Hz]] sp dn.
  assert (Hfs : grad_fits (Sparse n es) p = true).
  { simpl; rewrite <- Hn, Nat.eqb_refl; simpl.
    apply forallb_forall; intros e He; apply Nat.ltb_lt.
    rewrite Forall_forall in Hidx; apply Hidx; exact He. }
  assert (Hfd : grad_fits (Dense (to_dense n es)) p = true).
  { simpl; rewrite length_to_dense, Hn; apply Nat.eqb_refl. }
  destruct (Req_b (1 + (INR (S (step_count st)) - 1) * lr_decay grp) 0) eqn:Ed.
  { unfold sp, dn, step_slot; cbn [grad state param].
    rewrite Hwd, Req_b_true, Hfs, Hfd; cbn [negb]; rewrite Ed.
    split; [reflexivity | split; [reflexivity | split; [reflexivity|]]].
    intros Hd; apply Req_b_eq in Ed; contradiction. }
  set (k := S (step_count st)).
  set (clr := lr grp / (1 + (INR k - 1) * lr_decay grp)).
  assert (Esp : sp = (mkSlot (mkParam (shape p) (fst (sparse_update clr k st (data p) n es)))
                        (Some (Sparse n es)) (Some (snd (sparse_update clr k st (data p) n es))),
                      None)).
  { unfold sp, step_slot; cbn [grad state param].
    rewrite Hwd, Req_b_true, Hfs; cbn [negb]; rewrite Ed, Hel; reflexivity. }
  assert (Edn : dn = (mkSlot (mkParam (shape p) (fst (dense_update clr k st (data p) (to_dense n es))))
                        (Some (Dense (to_dense n es)))
                        (Some (snd (dense_update clr k st (data p) (to_dense n es)))), None)).
  { unfold dn, step_slot; cbn [grad state param].
    rewrite Hwd, Req_b_true, Hfd; cbn [negb]; rewrite Ed, Hel; reflexivity. }
  rewrite Esp, Edn; cbn [fst snd param state].
  rewrite (sparse_update_covering clr k st (data p) n es (eq_sym Hn)
             ltac:(rewrite Hs; symmetry; exact Hn) Hcov).
  unfold dense_update; cbn [fst snd].
  set (g := to_dense n es).
  set (sum_sp := add_sparse (sum st) 1 (map (fun i => (i, sum_at i es ^ 2)) (seq 0 n))).
  set (sum_dn := addcmul (sum st) 1 g g).
  assert (Hgl : length g = n) by (unfold g; apply length_to_dense).
  assert (Esum : sum_sp = sum_dn).
  { apply nth_ext with (d := 0) (d' := 0).
    - unfold sum_sp, sum_dn, addcmul; len_solve.
    - intros j Hj; unfold sum_sp in Hj; autorewrite with tensor in Hj.
      unfold sum_sp, sum_dn, addcmul.
      rewrite (nth_add_sparse_seq (sum st) 1 (fun i => sum_at i es ^ 2) 0 n j).
      replace ((0 <=? j) && (j <? 0 + n) && (j <? length (sum st)))%nat with true
        by (symmetry; repeat rewrite andb_true_iff;
            rewrite Nat.leb_le, !Nat.ltb_lt; lia).
      nth_simpl; unfold g; rewrite nth_to_dense by lia; ring. }
  rewrite <- Esum.
  split; [|split; [reflexivity | split; [reflexivity | intros _; split; reflexivity]]].
  f_equal.
  apply nth_ext with (d := 0) (d' := 0).
  - unfold addcdiv, sum_sp; len_solve.
  - intros j Hj; autorewrite with tensor in Hj.
    rewrite (nth_add_sparse_seq (data p) (- clr)
               (fun i => sum_at i es / (sqrt (nth i sum_sp 0) + eps)) 0 n j).
    replace ((0 <=? j) && (j <? 0 + n) && (j <? length (data p)))%nat with true
      by (symmetry; repeat rewrite andb_true_iff;
          rewrite Nat.leb_le, !Nat.ltb_lt; lia).
    unfold addcdiv.
    assert (Hsl : length sum_sp = n) by (unfold sum_sp; len_solve).
    nth_simpl; unfold g; rewrite nth_to_dense by lia.
    unfold Rdiv; ring.
Qed.

(** A group without weight decay or L1, and a sparse gradient of size 2
    with a duplicate entry at coordinate 1. *)
Definition ex_plain_group : Group := mkGroup (1/10) 0 0 0 [].

Lemma sparse_path_matches_dense_witness :
  let p := mkParam [2%nat] [3; 4] in
  let es := [(1%nat, 2); (0%nat, 1); (1%nat, 1)] in
  let st := mkState 0 [0; 0] [0; 0] [0; 0] in
  let sp := step_slot ex_plain_group true true (mkSlot p (Some (Sparse 2 es)) (Some st)) in
  let dn := step_slot ex_plain_group true true (mkSlot p (Some (Dense (to_dense 2 es))) (Some st)) in
  snd sp = None /\ snd dn = None
  /\ param (fst sp) = param (fst dn) /\ state (fst sp) = state (fst dn).
Proof.
  intros p es st sp dn.
  cut (param (fst sp) = param (fst dn) /\ state (fst sp) = state (fst dn) /\ snd sp = snd dn
       /\ (1 + (INR 1 - 1) * lr_decay ex_plain_group <> 0 -> snd sp = None /\ snd dn = None)).
  { intros [H1 [H2 [_ H4]]]; destruct (H4 ltac:(simpl; lra)) as [H5 H6]; auto. }
  apply (sparse_path_matches_dense ex_plain_group true true p 2 es st).
  - reflexivity.
  - unfold l1_eligible; simpl; rewrite Req_b_true; reflexivity.
  - reflexivity.
  - repeat constructor; simpl; lia.
  - intros i Hi; destruct i as [|[|i]]; [exists 1 | exists 2 |]; simpl; auto; lia.
  - repeat split; reflexivity.
Defined.

(** ** C4: the dense path from a fresh state *)

(** C4 (first part).  From the state [reset] leaves, with [lr_decay = 0],
    [weight_decay = 0] and [l1_C = 0], the first step on a dense gradient
    [g] subtracts [lr * g / (|g| + 1e-10)] from each coordinate. *)
Lemma first_dense_step grp nb nns p t :
  lr_decay grp = 0 -> weight_decay grp = 0 -> l1_C grp = 0 ->
  length t = length (data p) ->
  let st0 := mkState 0 (zeros_like (data p)) (zeros_like (data p)) (zeros_like (data p)) in
  let r := step_slot grp nb nns (mkSlot p (Some (Dense t)) (Some st0)) in
  snd r = None
  /\ data (param (fst r)) = map2 (fun x g => x - lr grp * g / (Rabs g + 1e-10)) (data p) t.
Proof.
  intros Hd Hwd Hl1 Ht st0 r.
  assert (Hel : l1_eligible nb nns (l1_C grp) (shape p) = Ok false).
  { unfold l1_eligible; rewrite Hl1, Req_b_true; reflexivity. }
  assert (Hfit : grad_fits (Dense t) p = true) by (simpl; rewrite Ht; apply Nat.eqb_refl).
  assert (Er : r = (mkSlot (mkParam (shape p)
                      (fst (dense_update (lr grp / (1 + (INR 1 - 1) * lr_decay grp)) 1 st0 (data p) t)))
                      (Some (Dense t))
                      (Some (snd (dense_update (lr grp / (1 + (INR 1 - 1) * lr_decay grp)) 1 st0 (data p) t))),
                    None)).
  { unfold r, step_slot; cbn [grad state param step_count].
    rewrite Hwd, Req_b_true, Hfit; cbn [negb]; rewrite Hd; den_nonzero.
    rewrite Hel; reflexivity. }
  rewrite Er; cbn [fst snd param data]; split; [reflexivity|].
  unfold dense_update, addcdiv, addcmul; cbn [fst sum st0].
  apply nth_ext with (d := 0) (d' := 0); [unfold zeros_like; len_solve|].
  intros j Hj; unfold zeros_like in *; autorewrite with tensor in Hj.
  nth_simpl.
  rewrite Hd; simpl INR.
  replace (0 + 1 * nth j t 0 * nth j t 0) with (Rsqr (nth j t 0)) by (unfold Rsqr; ring).
  rewrite sqrt_Rsqr_abs.
  assert (Hpos : 0 < Rabs (nth j t 0) + 1e-10)
    by (pose proof (Rabs_pos (nth j t 0)); lra).
  unfold eps; field; lra.
Qed.

(** One step on the dense path of a one-parameter optimizer. *)
Lemma step_single_dense lr_ ld nb nns p t st :
  length t = length (data p) ->
  let k := S (step_count st) in
  let clr := lr_ / (1 + (INR k - 1) * ld) in
  1 + (INR k - 1) * ld <> 0 ->
  step None (mkAdagrad [mkGroup lr_ ld 0 0 [mkSlot p (Some (Dense t)) (Some st)]] nb nns) =
  (mkAdagrad [mkGroup lr_ ld 0 0
                [mkSlot (mkParam (shape p) (fst (dense_update clr k st (data p) t)))
                        (Some (Dense t)) (Some (snd (dense_update clr k st (data p) t)))]]
             nb nns, Ok None).
Proof.
  intros Ht k clr Hd; unfold k in Hd.
  assert (Hfit : grad_fits (Dense t) p = true) by (simpl; rewrite Ht; apply Nat.eqb_refl).
  unfold step; cbn [no_bias_l1 no_non_singleton_l1 param_groups step_groups params].
  unfold step_slots, step_slot; cbn [grad state param weight_decay l1_C lr lr_decay].
  rewrite Req_b_true, Hfit; cbn [negb]; rewrite (Req_b_false _ _ Hd).
  unfold l1_eligible; rewrite Req_b_true; reflexivity.
Qed.

(** The scenario of the spec: one parameter of shape [3], [lr = 0.1],
    [lr_decay = weight_decay = l1_C = 0], gradient [1, 1, 1]. *)
Definition ex_dense_opt (a b c : R) : Adagrad :=
  make_adagrad [mkSlot (mkParam [3%nat] [a; b; c]) (Some (Dense [1; 1; 1])) None]
    (1/10) 0 0 0 true true.

(** The dense update [x - lr * g / (sqrt(sum_sq_grad) + 1e-10)] with
    [g = 1], applied at [sum_sq_grad = 1, 2, 3]. *)
Definition ex_dense_closed_form (x : R) : R :=
  x - 1/10 * 1 / (sqrt 1 + 1e-10) - 1/10 * 1 / (sqrt 2 + 1e-10)
    - 1/10 * 1 / (sqrt 3 + 1e-10).

Lemma sqrt_eps_pos x : 0 < sqrt x + eps.
Proof. pose proof (sqrt_pos x); unfold eps; lra. Qed.

Lemma dense_scenario_three_steps a b c :
  let o1 := step None (ex_dense_opt a b c) in
  let o2 := step None (fst o1) in
  let o3 := step None (fst o2) in
  snd o1 = Ok None /\ snd o2 = Ok None /\ snd o3 = Ok None
  /\ param_groups (fst o3) =
     [mkGroup (1/10) 0 0 0
        [mkSlot (mkParam [3%nat] (map ex_dense_closed_form [a; b; c]))
                (Some (Dense [1; 1; 1])) (Some (mkState 3 [3; 3; 3] [0; 0; 0] [0; 0; 0]))]].
Proof.
  intros o1 o2 o3.
  unfold o3, o2, o1, ex_dense_opt, make_adagrad, reset, set_params, reset_slot, zeros_like.
  cbn [map param_groups params param grad data lr lr_decay weight_decay l1_C no_bias_l1
    no_non_singleton_l1].
  rewrite step_single_dense by (first [reflexivity | simpl; lra]); cbn [fst snd].
  rewrite step_single_dense by (first [reflexivity | simpl; lra]); cbn [fst snd].
  rewrite step_single_dense by (first [reflexivity | simpl; lra]); cbn [fst snd param_groups].
  repeat split.
  unfold dense_update, addcdiv, addcmul; cbn [fst snd step_count sum avg zeros data shape
    map map2 param_groups].
  replace (0 + 1 * 1 * 1) with 1 by ring.
  replace (1 + 1 * 1 * 1) with 2 by ring.
  replace (2 + 1 * 1 * 1) with 3 by ring.
  assert (Hx : forall x,
    x + - (1 / 10 / (1 + (INR 1 - 1) * 0)) * 1 / (sqrt 1 + eps)
      + - (1 / 10 / (1 + (INR 2 - 1) * 0)) * 1 / (sqrt 2 + eps)
      + - (1 / 10 / (1 + (INR 3 - 1) * 0)) * 1 / (sqrt 3 + eps)
    = ex_dense_closed_form x).
  { intros x; unfold ex_dense_closed_form.
    pose proof (sqrt_eps_pos 1); pose proof (sqrt_eps_pos 2); pose proof (sqrt_eps_pos 3).
    unfold eps in *; simpl INR; field; repeat split; lra. }
  rewrite !Hx; reflexivity.
Qed.

(** C4.  From the zero state of [reset], with [lr_decay = 0],
    [weight_decay = 0] and [l1_C = 0]: the first dense step subtracts
    [lr * g / (|g| + 1e-10)] coordinate-wise; and in the scenario of a
    shape-[3] parameter, [lr = 0.1] and gradient [1, 1, 1], three steps
    succeed and leave [sum_sq_grad = [3, 3, 3]], step count 3 and the
    parameter [x - 0.1 / (sqrt 1 + 1e-10) - 0.1 / (sqrt 2 + 1e-10)
    - 0.1 / (sqrt 3 + 1e-10)] for each initial coordinate [x]. *)
Theorem dense_path_from_reset :
  (forall grp nb nns p t,
     lr_decay grp = 0 -> weight_decay grp = 0 -> l1_C grp = 0 ->
     length t = length (data p) ->
     let st0 := mkState 0 (zeros_like (data p)) (zeros_like (data p)) (zeros_like (data p)) in
     let r := step_slot grp nb nns (mkSlot p (Some (Dense t)) (Some st0)) in
     snd r = None
     /\ data (param (fst r)) = map2 (fun x g => x - lr grp * g / (Rabs g + 1e-10)) (data p) t)
  /\ (forall a b c,
     let o1 := step None (ex_dense_opt a b c) in
     let o2 := step None (fst o1) in
     let o3 := step None (fst o2) in
     snd o1 = Ok None /\ snd o2 = Ok None /\ snd o3 = Ok None
     /\ param_groups (fst o3) =
        [mkGroup (1/10) 0 0 0
           [mkSlot (mkParam [3%nat] (map ex_dense_closed_form [a; b; c]))
                   (Some (Dense [1; 1; 1])) (Some (mkState 3 [3; 3; 3] [0; 0; 0] [0; 0; 0]))]]).
Proof.
  split; [exact first_dense_step | exact dense_scenario_three_steps].
Qed.

Lemma dense_path_from_reset_witness :
  let p := mkParam [2%nat] [3; 4] in
  let st0 := mkState 0 (zeros_like (data p)) (zeros_like (data p)) (zeros_like (data p)) in
  let r := step_slot ex_plain_group true true (mkSlot p (Some (Dense [1; -2])) (Some st0)) in
  snd r = None
  /\ data (param (fst r)) =
     map2 (fun x g => x - lr ex_plain_group * g / (Rabs g + 1e-10)) (data p) [1; -2].
Proof.
  apply (proj1 dense_path_from_reset ex_plain_group true true (mkParam [2%nat] [3; 4]) [1; -2]);
    reflexivity.
Defined.

(** ** The loops: slots before a failing one are fully updated *)

Definition slot_ok (grp : Group) (nb nns : bool) (s : Slot) : Prop :=
  snd (step_slot grp nb nns s) = None.

Definition stepped (grp : Group) (nb nns : bool) (ss : list Slot) : list Slot :=
  map (fun s => fst (step_slot grp nb nns s)) ss.

Definition group_ok (nb nns : bool) (grp : Group) : Prop :=
  Forall (slot_ok grp nb nns) (params grp).

Definition stepped_group (nb nns : bool) (grp : Group) : Group :=
  set_params grp (stepped grp nb nns (params grp)).

Lemma step_slots_all_ok grp nb nns ss :
  Forall (slot_ok grp nb nns) ss ->
  step_slots grp nb nns ss = (stepped grp nb nns ss, None).
Proof.
  induction 1 as [|s ss Hs Hss IH]; [reflexivity|].
  unfold slot_ok in Hs; simpl.
  destruct (step_slot grp nb nns s) as [s' e]; simpl in Hs; subst e.
  rewrite IH; reflexivity.
Qed.

Lemma step_slots_stop grp nb nns ss1 s ss2 e :
  Forall (slot_ok grp nb nns) ss1 ->
  snd (step_slot grp nb nns s) = Some e ->
  step_slots grp nb nns (ss1 ++ s :: ss2) =
  (stepped grp nb nns ss1 ++ fst (step_slot grp nb nns s) :: ss2, Some e).
Proof.
  induction 1 as [|s0 ss Hs0 Hss IH]; intros He; simpl.
  - destruct (step_slot grp nb nns s) as [s' e']; simpl in *; subst; reflexivity.
  - unfold slot_ok in Hs0.
    destruct (step_slot grp nb nns s0) as [s0' e0]; simpl in Hs0; subst e0.
    rewrite (IH He); reflexivity.
Qed.

Lemma step_groups_stop nb nns gs1 grp gs2 ss' e :
  Forall (group_ok nb nns) gs1 ->
  step_slots grp nb nns (params grp) = (ss', Some e) ->
  step_groups nb nns (gs1 ++ grp :: gs2) =
  (map (stepped_group nb nns) gs1 ++ set_params grp ss' :: gs2, Some e).
Proof.
  induction 1 as [|g0 gs Hg0 Hgs IH]; intros He; simpl.
  - rewrite He; reflexivity.
  - unfold group_ok in Hg0; rewrite (step_slots_all_ok _ _ _ _ Hg0).
    rewrite (IH He); reflexivity.
Qed.

Lemma step_slots_fails grp nb nns ss s :
  In s ss -> snd (step_slot grp nb nns s) <> None ->
  snd (step_slots grp nb nns ss) <> None.
Proof.
  induction ss as [|s0 ss IH]; intros Hin Hs; [destruct Hin|].
  simpl; destruct (step_slot grp nb nns s0) as [s0' e0] eqn:E0.
  destruct e0 as [e0|]; [simpl; discriminate|].
  destruct Hin as [<-|Hin].
  - rewrite E0 in Hs; contradiction.
  - destruct (step_slots grp nb nns ss) as [r er] eqn:Er; simpl.
    specialize (IH Hin Hs); try rewrite Er in IH; exact IH.
Qed.

Lemma step_groups_fails nb nns gs grp s :
  In grp gs -> In s (params grp) -> snd (step_slot grp nb nns s) <> None ->
  snd (step_groups nb nns gs) <> None.
Proof.
  induction gs as [|g0 gs IH]; intros Hg Hs Hf; [destruct Hg|].
  simpl; destruct (step_slots g0 nb nns (params g0)) as [ss' e] eqn:E.
  destruct e as [e|]; [simpl; discriminate|].
  destruct Hg as [<-|Hg].
  - pose proof (step_slots_fails _ _ _ _ _ Hs Hf) as H; rewrite E in H; contradiction.
  - destruct (step_groups nb nns gs) as [r er] eqn:Er; simpl.
    specialize (IH Hg Hs Hf); try rewrite Er in IH; exact IH.
Qed.

(** ** C5: weight decay *)

Definition with_weight_decay (grp : Group) (w : R) : Group :=
  mkGroup (lr grp) (lr_decay grp) w (l1_C grp) (params grp).

(** A sparse gradient under weight decay: the step count has been
    incremented, then [UnsupportedOperation] is raised. *)
Lemma step_slot_wd_sparse grp nb nns s n es st :
  weight_decay grp <> 0 -> grad s = Some (Sparse n es) -> state s = Some st ->
  step_slot grp nb nns s =
  (mkSlot (param s) (grad s) (Some (mkState (S (step_count st)) (sum st) (avg st) (zeros st))),
   Some UnsupportedOperation).
Proof.
  intros Hwd Hg Hs; unfold step_slot; rewrite Hg, Hs.
  rewrite (Req_b_false _ _ Hwd); reflexivity.
Qed.

(** C5.  For a group with [weight_decay <> 0]: (1) a parameter with a
    sparse gradient (and its state) makes its step raise
    [UnsupportedOperation], after its step count was incremented; (2) so
    [step()] on any optimizer holding such a parameter raises; (3) the
    exception raised is [UnsupportedOperation] whenever the parameters
    visited before it step without raising; (4) on a dense gradient [g]
    the step does exactly what a step without weight decay does on the
    gradient [g + weight_decay * p]. *)
Theorem weight_decay_sparse_fails_dense_adds :
  (forall grp nb nns p n es st,
     weight_decay grp <> 0 ->
     step_slot grp nb nns (mkSlot p (Some (Sparse n es)) (Some st)) =
     (mkSlot p (Some (Sparse n es))
        (Some (mkState (S (step_count st)) (sum st) (avg st) (zeros st))),
      Some UnsupportedOperation))
  /\ (forall o grp s n es st,
     In grp (param_groups o) -> In s (params grp) ->
     weight_decay grp <> 0 -> grad s = Some (Sparse n es) -> state s = Some st ->
     exists e, snd (step None o) = Err e)
  /\ (forall o gs1 grp gs2 ss1 s ss2 n es st,
     param_groups o = gs1 ++ grp :: gs2 -> params grp = ss1 ++ s :: ss2 ->
     Forall (group_ok (no_bias_l1 o) (no_non_singleton_l1 o)) gs1 ->
     Forall (slot_ok grp (no_bias_l1 o) (no_non_singleton_l1 o)) ss1 ->
     weight_decay grp <> 0 -> grad s = Some (Sparse n es) -> state s = Some st ->
     snd (step None o) = Err UnsupportedOperation)
  /\ (forall grp nb nns p t st,
     weight_decay grp <> 0 -> length t = length (data p) ->
     let r1 := step_slot grp nb nns (mkSlot p (Some (Dense t)) (Some st)) in
     let r2 := step_slot (with_weight_decay grp 0) nb nns
                 (mkSlot p (Some (Dense (map2 (fun g x => g + weight_decay grp * x) t (data p))))
                    (Some st)) in
     snd r1 = snd r2 /\ param (fst r1) = param (fst r2) /\ state (fst r1) = state (fst r2)).
Proof.
  split; [|split; [|split]].
  - intros grp nb nns p n es st Hwd.
    exact (step_slot_wd_sparse grp nb nns (mkSlot p (Some (Sparse n es)) (Some st))
             n es st Hwd eq_refl eq_refl).
  - intros [gs nb nns] grp s n es st Hg Hs Hwd Hgr Hst; simpl in *.
    unfold step; simpl.
    assert (Hf : snd (step_slot grp nb nns s) <> None)
      by (rewrite (step_slot_wd_sparse grp nb nns s n es st Hwd Hgr Hst); discriminate).
    pose proof (step_groups_fails nb nns gs grp s Hg Hs Hf) as H.
    destruct (step_groups nb nns gs) as [gs' [e|]]; simpl in *; [exists e; reflexivity|].
    contradiction.
  - intros [gs nb nns] gs1 grp gs2 ss1 s ss2 n es st Ho Hp Hgs1 Hss1 Hwd Hgr Hst;
      simpl in *.
    assert (Hf : snd (step_slot grp nb nns s) = Some UnsupportedOperation)
      by (rewrite (step_slot_wd_sparse grp nb nns s n es st Hwd Hgr Hst); reflexivity).
    pose proof (step_slots_stop grp nb nns ss1 s ss2 _ Hss1 Hf) as Hsl.
    rewrite <- Hp in Hsl.
    unfold step; simpl; rewrite Ho, (step_groups_stop nb nns gs1 grp gs2 _ _ Hgs1 Hsl).
    reflexivity.
  - intros grp nb nns p t st Hwd Ht r1 r2.
    assert (Hf1 : grad_fits (Dense t) p = true) by (simpl; rewrite Ht; apply Nat.eqb_refl).
    assert (Hf2 : grad_fits (Dense (map2 (fun g x => g + weight_decay grp * x) t (data p))) p = true)
      by (simpl; rewrite length_map2, Ht, Nat.min_id; apply Nat.eqb_refl).
    unfold r1, r2, step_slot, with_weight_decay; cbn [grad state param weight_decay lr lr_decay l1_C].
    rewrite (Req_b_false _ _ Hwd), Req_b_true, Hf1, Hf2; cbn [negb].
    unfold add.
    destruct (Req_b (1 + (INR (S (step_count st)) - 1) * lr_decay grp) 0);
      [repeat split; reflexivity|].
    destruct (l1_eligible nb nns (l1_C grp) (shape p)) as [[|]|e];
      repeat split; reflexivity.
Qed.

Definition ex_wd_group : Group :=
  mkGroup (1/10) 0 (1/100) 0 [mkSlot (mkParam [2%nat] [3; 4]) (Some (Sparse 2 [(0%nat, 1)]))
                                 (Some (mkState 0 [0; 0] [0; 0] [0; 0]))].

Definition ex_wd_opt : Adagrad := mkAdagrad [ex_wd_group] true true.

Lemma weight_decay_sparse_fails_dense_adds_witness :
  snd (step None ex_wd_opt) = Err UnsupportedOperation.
Proof.
  assert (Hwd : weight_decay ex_wd_group <> 0) by (simpl; lra).
  apply (proj1 (proj2 (proj2 weight_decay_sparse_fails_dense_adds))
           ex_wd_opt [] ex_wd_group [] [] (hd (mkSlot (mkParam [] []) None None) (params ex_wd_group)) []
           2%nat [(0%nat, 1)] (mkState 0 [0; 0] [0; 0] [0; 0]));
    try reflexivity; try constructor; exact Hwd.
Defined.

(** ** C6: the sparse path touches only the gradient's coordinates *)

Lemma nth_add_sparse_notin t alpha es j :
  (forall e, In e es -> fst e <> j) ->
  nth j (add_sparse t alpha es) 0 = nth j t 0.
Proof.
  revert t; induction es as [|e es IH]; intros t H; [reflexivity|].
  rewrite add_sparse_cons, IH by (intros e' He'; apply H; right; exact He').
  rewrite nth_upd.
  destruct (Nat.eqb_spec (fst e) j) as [E|E]; [|reflexivity].
  exfalso; apply (H e); [left; reflexivity | exact E].
Qed.

Lemma coalesce_index n es e :
  In e (coalesce n es) -> exists v, In (fst e, v) es.
Proof.
  unfold coalesce; intros H; apply in_flat_map in H as [i [_ Hi]].
  destruct (existsb (fun e0 => Nat.eqb (fst e0) i) es) eqn:E; [|destruct Hi].
  destruct Hi as [<-|[]]; simpl.
  apply existsb_exists in E as [[j v] [Hin Hj]]; simpl in Hj.
  apply Nat.eqb_eq in Hj; subst j; exists v; exact Hin.
Qed.

(** C6.  On the sparse path ([weight_decay = 0], the L1 path not
    selected, a well-formed sparse gradient), the step leaves [avg_grad] as
    it was and, at every coordinate [i] the gradient has no entry for,
    leaves both the parameter and [sum_sq_grad] unchanged; this holds also
    when line 82 raises [ZeroDivisionError], and the step succeeds when
    [1 + (k - 1) * lr_decay <> 0]. *)
Theorem sparse_path_frame grp nb nns p n es st :
  weight_decay grp = 0 ->
  l1_eligible nb nns (l1_C grp) (shape p) = Ok false ->
  grad_fits (Sparse n es) p = true ->
  let r := step_slot grp nb nns (mkSlot p (Some (Sparse n es)) (Some st)) in
  (1 + (INR (S (step_count st)) - 1) * lr_decay grp <> 0 -> snd r = None)
  /\ exists st', state (fst r) = Some st' /\ avg st' = avg st
     /\ forall i, (forall v, ~ In (i, v) es) ->
        nth i (data (param (fst r))) 0 = nth i (data p) 0
        /\ nth i (sum st') 0 = nth i (sum st) 0.
Proof.
  intros Hwd Hel Hfit r.
  destruct (Req_b (1 + (INR (S (step_count st)) - 1) * lr_decay grp) 0) eqn:Ed.
  { assert (Er : r = (mkSlot p (Some (Sparse n es))
                        (Some (mkState (S (step_count st)) (sum st) (avg st) (zeros st))),
                      Some ZeroDivisionError)).
    { unfold r, step_slot; cbn [grad state param].
      rewrite Hwd, Req_b_true, Hfit; cbn [negb]; rewrite Ed; reflexivity. }
    rewrite Er; split; [intros Hd; apply Req_b_eq in Ed; contradiction|].
    eexists; split; [reflexivity|]; split; [reflexivity|].
    intros i _; split; reflexivity. }
  set (k := S (step_count st)).
  set (clr := lr grp / (1 + (INR k - 1) * lr_decay grp)).
  assert (Er : r = (mkSlot (mkParam (shape p) (fst (sparse_update clr k st (data p) n es)))
                      (Some (Sparse n es)) (Some (snd (sparse_update clr k st (data p) n es))),
                    None)).
  { unfold r, step_slot; cbn [grad state param].
    rewrite Hwd, Req_b_true, Hfit; cbn [negb]; rewrite Ed, Hel; reflexivity. }
  rewrite Er; cbn [fst snd param state data]; split; [reflexivity|].
  eexists; split; [reflexivity|].
  unfold sparse_update; cbn [fst snd avg sum]; split; [reflexivity|].
  intros i Hi.
  assert (Hcs : forall e, In e (coalesce n es) -> fst e <> i).
  { intros e He E; apply coalesce_index in He as [v Hv]; rewrite E in Hv.
    exact (Hi v Hv). }
  split; apply nth_add_sparse_notin; intros e He; apply in_map_iff in He as [e0 [<- He0]];
    simpl; apply Hcs; exact He0.
Qed.

Lemma sparse_path_frame_witness :
  let r := step_slot ex_plain_group true true
             (mkSlot (mkParam [3%nat] [5; 6; 7]) (Some (Sparse 3 [(1%nat, 2)]))
                     (Some (mkState 0 [0; 0; 0] [0; 0; 0] [0; 0; 0]))) in
  snd r = None
  /\ exists st', state (fst r) = Some st' /\ avg st' = [0; 0; 0]
     /\ forall i, (forall v, ~ In (i, v) [(1%nat, 2)]) ->
        nth i (data (param (fst r))) 0 = nth i [5; 6; 7] 0
        /\ nth i (sum st') 0 = nth i [0; 0; 0] 0.
Proof.
  intros r.
  assert (Hel : l1_eligible true true (l1_C ex_plain_group) (shape (mkParam [3%nat] [5; 6; 7]))
                = Ok false)
    by (unfold l1_eligible; simpl; rewrite Req_b_true; reflexivity).
  destruct (sparse_path_frame ex_plain_group true true (mkParam [3%nat] [5; 6; 7]) 3 [(1%nat, 2)]
              (mkState 0 [0; 0; 0] [0; 0; 0] [0; 0; 0]) eq_refl Hel eq_refl) as [H1 H2].
  split; [apply H1; simpl; lra | exact H2].
Defined.

(** ** C7: [reset] and [get_step] *)


Definition has_params (o : Adagrad) : bool :=
  existsb (fun grp => match params grp with [] => false | _ :: _ => true end) (param_groups o).







Lemma step_groups_all_ok nb nns gs :
  Forall (group_ok nb nns) gs ->
  step_groups nb nns gs = (map (stepped_group nb nns) gs, None).
Proof.
  induction 1 as [|g gs Hg _ IH]; [reflexivity|]; simpl.
  unfold group_ok in Hg; rewrite (step_slots_all_ok _ _ _ _ Hg), IH; reflexivity.
Qed.

Lemma step_groups_none nb nns gs gs' :
  step_groups nb nns gs = (gs', None) -> Forall (group_ok nb nns) gs.
Proof.
  revert gs'; induction gs as [|g gs IH]; intros gs' H; [constructor|].
  simpl in H; destruct (step_slots g nb nns (params g)) as [ss' e] eqn:Es.
  destruct e as [e|]; [discriminate|].
  destruct (step_groups nb nns gs) as [r er] eqn:Er; inversion H; subst er.
  constructor; [|eapply IH; reflexivity].
  unfold group_ok; clear -Es; revert ss' Es; induction (params g) as [|s ss IHs];
    intros ss' Es; [constructor|].
  simpl in Es; destruct (step_slot g nb nns s) as [s' e] eqn:E1.
  destruct e as [e|]; [discriminate|].
  destruct (step_slots g nb nns ss) as [r er] eqn:Er; inversion Es; subst er.
  constructor; [unfold slot_ok; rewrite E1; reflexivity | eapply IHs; reflexivity].
Qed.

Definition nonempty_group (grp : Group) : bool :=
  match params grp with [] => false | _ :: _ => true end.

Lemma has_params_groups o : has_params o = existsb nonempty_group (param_groups o).
Proof. reflexivity. Qed.





Lemma has_params_reset o : has_params (reset o) = has_params o.
Proof.
  destruct o as [gs nb nns]; unfold has_params, reset; simpl.
  induction gs as [|g gs IH]; simpl; [reflexivity|].
  rewrite IH; unfold set_params; simpl; destruct (params g); reflexivity.
Qed.







(** ** C9: the closure *)

(** C9.  [step(closure)] first calls the closure, once, on the optimizer
    as it is, then runs the parameter updates on the optimizer the closure
    returns, and returns the closure's value unless an update raises;
    without a closure, [step()] returns [None] or raises. *)
Theorem step_closure_first f o :
  step (Some f) o =
  (fst (step None (fst (f o))),
   match snd (step None (fst (f o))) with
   | Ok _ => Ok (Some (snd (f o)))
   | Err e => Err e
   end)
  /\ (forall l, snd (step None o) <> Ok (Some l)).
Proof.
  split.
  - unfold step; destruct (f o) as [o1 l]; simpl.
    destruct (step_groups _ _ _) as [gs' [e|]]; reflexivity.
  - intros l; unfold step; destruct (step_groups _ _ _) as [gs' [e|]]; simpl; discriminate.
Qed.

(** ** C10: a failing [step] keeps the updates made before the failure *)

(** C10.  If the parameter [s] of group [grp] (weight decay nonzero,
    sparse gradient) is reached, every parameter visited before it having
    stepped without raising, then [step()] raises [UnsupportedOperation]
    and leaves: every earlier parameter fully updated, [s] with its step
    count incremented, everything after it untouched. *)
Theorem step_failure_not_atomic o gs1 grp gs2 ss1 s ss2 n es st :
  param_groups o = gs1 ++ grp :: gs2 -> params grp = ss1 ++ s :: ss2 ->
  Forall (group_ok (no_bias_l1 o) (no_non_singleton_l1 o)) gs1 ->
  Forall (slot_ok grp (no_bias_l1 o) (no_non_singleton_l1 o)) ss1 ->
  weight_decay grp <> 0 -> grad s = Some (Sparse n es) -> state s = Some st ->
  step None o =
  (mkAdagrad
     (map (stepped_group (no_bias_l1 o) (no_non_singleton_l1 o)) gs1
      ++ set_params grp
           (stepped grp (no_bias_l1 o) (no_non_singleton_l1 o) ss1
            ++ mkSlot (param s) (grad s)
                 (Some (mkState (S (step_count st)) (sum st) (avg st) (zeros st))) :: ss2)
      :: gs2)
     (no_bias_l1 o) (no_non_singleton_l1 o),
   Err UnsupportedOperation).
Proof.
  destruct o as [gs nb nns]; simpl.
  intros Ho Hp Hgs1 Hss1 Hwd Hgr Hst.
  assert (Hf : snd (step_slot grp nb nns s) = Some UnsupportedOperation)
    by (rewrite (step_slot_wd_sparse grp nb nns s n es st Hwd Hgr Hst); reflexivity).
  pose proof (step_slots_stop grp nb nns ss1 s ss2 _ Hss1 Hf) as Hsl.
  rewrite <- Hp in Hsl.
  unfold step; simpl; rewrite Ho, (step_groups_stop nb nns gs1 grp gs2 _ _ Hgs1 Hsl).
  rewrite (step_slot_wd_sparse grp nb nns s n es st Hwd Hgr Hst); reflexivity.
Qed.

Definition ex_slot_dense : Slot :=
  mkSlot (mkParam [2%nat] [3; 4]) (Some (Dense [1; 1])) (Some (mkState 0 [0; 0] [0; 0] [0; 0])).

Definition ex_slot_sparse : Slot :=
  mkSlot (mkParam [2%nat] [5; 6]) (Some (Sparse 2 [(0%nat, 1)]))
         (Some (mkState 0 [0; 0] [0; 0] [0; 0])).

(** Weight decay 0.01: the dense parameter steps, the sparse one raises. *)
Definition ex_fail_group : Group :=
  mkGroup (1/10) 0 (1/100) 0 [ex_slot_dense; ex_slot_sparse].

Definition ex_fail_opt : Adagrad := mkAdagrad [ex_fail_group] true true.

Lemma step_failure_not_atomic_witness :
  step None ex_fail_opt =
  (mkAdagrad
     [set_params ex_fail_group
        [fst (step_slot ex_fail_group true true ex_slot_dense);
         mkSlot (param ex_slot_sparse) (grad ex_slot_sparse)
           (Some (mkState 1 [0; 0] [0; 0] [0; 0]))]]
     true true,
   Err UnsupportedOperation).
Proof.
  assert (Hwd : weight_decay ex_fail_group <> 0) by (simpl; lra).
  assert (Hok : slot_ok ex_fail_group true true ex_slot_dense).
  { unfold slot_ok, step_slot; cbn [grad state param ex_slot_dense].
    rewrite (Req_b_false _ _ Hwd).
    change (negb (grad_fits (Dense [1; 1]) (mkParam [2%nat] [3; 4]))) with false.
    cbv iota. cbn [lr_decay ex_fail_group step_count]. den_nonzero.
    unfold l1_eligible; cbn [l1_C ex_fail_group]; rewrite Req_b_true; reflexivity. }
  apply (step_failure_not_atomic ex_fail_opt [] ex_fail_group [] [ex_slot_dense] ex_slot_sparse []
           2%nat [(0%nat, 1)] (mkState 0 [0; 0] [0; 0] [0; 0])).
  - reflexivity.
  - reflexivity.
  - constructor.
  - constructor; [exact Hok | constructor].
  - exact Hwd.
  - reflexivity.
  - reflexivity.
Defined.

(** ** C8: [train_from_config] *)

Import String.StringSyntax.
Local Open Scope string_scope.

(** The configuration keys [train_from_config] reads before training. *)
Record Config := mkConfig { cfg_data : String.string; cfg_data_size : option nat }.

Fixpoint lookup {A} (k : String.string) (m : list (String.string * A)) : option A :=
  match m with
  | [] => None
  | (k', v) :: m' => if String.eqb k k' then Some v else lookup k m'
  end.

(** Modelled from the spec: [DataSet.get_subset] of [mung.data] (not among
    the sources), the "contiguous-subset selection" of the Dataset
    interface: it returns the examples [start .. end - 1] as a new dataset
    and leaves the dataset it is called on as it is (only [shuffle] is
    in place). *)
Definition get_subset {A} (d : list A) (start end_ : nat) : list A :=
  firstn (end_ - start) (skipn start d).

(** [train_from_config] up to the call of [trainer.train]: the dataset it
    hands to the trainer.  [shuffle] is the in-place shuffle of the
    dataset; the result of [get_subset] is not bound, as in the source. *)
Definition train_from_config {A} (shuffle : list A -> list A) (config : Config)
    (data_sets : list (String.string * list A)) : result (list A) :=
  match lookup (cfg_data config) data_sets with
  | None => Err KeyError
  | Some data =>
    let data :=
      match cfg_data_size config with
      | Some n =>
        let data := shuffle data in
        let _ := get_subset data 0 n in
        data
      | None => data
      end in
    Ok data
  end.

(** Whatever [data_size] is, the trainer receives the whole shuffled dataset. *)
Lemma train_from_config_passes_shuffled A (shuffle : list A -> list A) name n d rest :
  (forall l, Permutation l (shuffle l)) ->
  train_from_config shuffle (mkConfig name (Some n)) ((name, d) :: rest) = Ok (shuffle d)
  /\ length (shuffle d) = length d.
Proof.
  intros Hperm; split.
  - unfold train_from_config; simpl; rewrite String.eqb_refl; reflexivity.
  - symmetry; apply Permutation_length; apply Hperm.
Qed.

(** C8 (code_bug).  With [data_size = 50] on a 200-example dataset (the
    shuffle here reverses the order), the dataset handed to the trainer is
    the whole shuffled dataset of 200 examples, not 50. *)
Theorem train_from_config_ignores_data_size :
  train_from_config (@rev nat) (mkConfig "train" (Some 50%nat)) [("train", seq 0 200)]
  = Ok (rev (seq 0 200))
  /\ length (rev (seq 0 200)) = 200%nat.
Proof. split; reflexivity. Qed.

(** * Further properties of the optimizer and of [train_from_config] *)

(** ** [reset] *)

Lemma zeros_like_repeat t : zeros_like t = repeat 0 (length t).
Proof. induction t as [|x t IH]; simpl; [reflexivity|]; rewrite IH; reflexivity. Qed.

(** [reset()] gives every registered parameter a state with step 0 and
    all-zero [sum], [avg] and [zeros] of the parameter's size; it leaves
    parameters, gradients and group settings as they are, and a second
    [reset()] changes nothing. *)
Theorem reset_initialises o :
  (forall grp s, In grp (param_groups (reset o)) -> In s (params grp) ->
     exists st, state s = Some st /\ step_count st = 0%nat /\ wf_state (param s) st
                /\ sum st = repeat 0 (length (data (param s)))
                /\ avg st = repeat 0 (length (data (param s))))
  /\ map (fun grp => (lr grp, lr_decay grp, weight_decay grp, l1_C grp,
                      map (fun s => (param s, grad s)) (params grp))) (param_groups (reset o))
     = map (fun grp => (lr grp, lr_decay grp, weight_decay grp, l1_C grp,
                        map (fun s => (param s, grad s)) (params grp))) (param_groups o)
  /\ reset (reset o) = reset o.
Proof.
  destruct o as [gs nb nns]; unfold reset; simpl; split; [|split].
  - intros grp s Hg Hs; apply in_map_iff in Hg as [g0 [<- _]].
    unfold set_params in Hs; simpl in Hs; apply in_map_iff in Hs as [s0 [<- _]].
    unfold reset_slot; simpl; eexists; split; [reflexivity|].
    rewrite !zeros_like_repeat; repeat split; simpl; try reflexivity;
      apply repeat_length.
  - rewrite map_map; apply map_ext; intros g; unfold set_params; simpl.
    rewrite map_map; reflexivity.
  - f_equal; rewrite map_map; apply map_ext; intros g; unfold set_params; simpl.
    rewrite map_map; reflexivity.
Qed.

(** ** Shapes are kept by [step] *)

Lemma l1_update_lengths clr l1 k st g n :
  length g = n -> length (sum st) = n -> length (avg st) = n -> length (zeros st) = n ->
  length (fst (l1_update clr l1 k st g)) = n
  /\ length (sum (snd (l1_update clr l1 k st g))) = n
  /\ length (avg (snd (l1_update clr l1 k st g))) = n
  /\ zeros (snd (l1_update clr l1 k st g)) = zeros st
  /\ step_count (snd (l1_update clr l1 k st g)) = k.
Proof.
  intros; unfold l1_update, add, addcmul; simpl; repeat split; len_solve.
Qed.

Lemma sparse_update_lengths clr k st p n es :
  length (fst (sparse_update clr k st p n es)) = length p
  /\ length (sum (snd (sparse_update clr k st p n es))) = length (sum st)
  /\ avg (snd (sparse_update clr k st p n es)) = avg st
  /\ zeros (snd (sparse_update clr k st p n es)) = zeros st
  /\ step_count (snd (sparse_update clr k st p n es)) = k.
Proof. unfold sparse_update; simpl; repeat split; len_solve. Qed.

Lemma dense_update_lengths clr k st p g :
  length g = length p -> length (sum st) = length p ->
  length (fst (dense_update clr k st p g)) = length p
  /\ length (sum (snd (dense_update clr k st p g))) = length p
  /\ avg (snd (dense_update clr k st p g)) = avg st
  /\ zeros (snd (dense_update clr k st p g)) = zeros st
  /\ step_count (snd (dense_update clr k st p g)) = k.
Proof. intros; unfold dense_update, addcdiv, addcmul; simpl; repeat split; len_solve. Qed.

Lemma finish_shapes (p : Param) (gr : option Grad) (r : tensor * OptState) k :
  length (fst r) = length (data p) ->
  length (sum (snd r)) = length (data p) ->
  length (avg (snd r)) = length (data p) ->
  zeros (snd r) = repeat 0 (length (data p)) ->
  step_count (snd r) = k ->
  shape (mkParam (shape p) (fst r)) = shape p
  /\ length (data (mkParam (shape p) (fst r))) = length (data p)
  /\ gr = gr
  /\ exists st', Some (snd r) = Some st' /\ wf_state (mkParam (shape p) (fst r)) st'
                 /\ step_count st' = k.
Proof.
  intros H1 H2 H3 H4 H5; simpl; repeat split; auto.
  exists (snd r); unfold wf_state; simpl; rewrite H1; auto.
Qed.

(** A parameter that steps without raising keeps its shape, its size, its
    gradient and a well-formed state, whose step count went up by one. *)
Theorem step_slot_keeps_shapes grp nb nns s s' g st :
  grad s = Some g -> state s = Some st -> wf_state (param s) st ->
  step_slot grp nb nns s = (s', None) ->
  shape (param s') = shape (param s)
  /\ length (data (param s')) = length (data (param s))
  /\ grad s' = grad s
  /\ exists st', state s' = Some st' /\ wf_state (param s') st'
                 /\ step_count st' = S (step_count st).
Proof.
  intros Hg Hs [Hsl [Hal Hz]].
  assert (Hzl : length (zeros st) = length (data (param s))) by (rewrite Hz; apply repeat_length).
  unfold step_slot; rewrite Hg, Hs.
  destruct (Req_b (weight_decay grp) 0); destruct g as [t|n es];
  try (match goal with |- context [grad_fits ?x ?y] => destruct (grad_fits x y) eqn:Hf end);
  try (match goal with |- context [Req_b (1 + ?x) 0] => destruct (Req_b (1 + x) 0) end);
  destruct (l1_eligible nb nns (l1_C grp) (shape (param s))) as [[|]|e];
  cbn [negb]; intros H; apply pair_equal_spec in H as [<- He]; try discriminate He;
  cbn [param grad state]; apply finish_shapes;
  match goal with
  | |- context [l1_update ?clr ?l1 ?k ?st0 ?gv] =>
      assert (HL : length gv = length (data (param s)))
        by (cbn [grad_fits grad_value] in *; try apply Nat.eqb_eq in Hf;
            try (apply andb_true_iff in Hf as [Hf _]; apply Nat.eqb_eq in Hf);
            unfold add; len_solve);
      destruct (l1_update_lengths clr l1 k st0 gv _ HL Hsl Hal Hzl) as [L1 [L2 [L3 [L4 L5]]]];
      first [rewrite L4 | idtac]; assumption
  | |- context [sparse_update ?clr ?k ?st0 ?p ?n0 ?es0] =>
      destruct (sparse_update_lengths clr k st0 p n0 es0) as [L1 [L2 [L3 [L4 L5]]]];
      first [rewrite L2 | rewrite L3 | rewrite L4 | idtac]; assumption
  | |- context [dense_update ?clr ?k ?st0 ?p ?gv] =>
      assert (HL : length gv = length p)
        by (cbn [grad_fits] in *; apply Nat.eqb_eq in Hf; unfold add; len_solve);
      destruct (dense_update_lengths clr k st0 p gv HL Hsl) as [L1 [L2 [L3 [L4 L5]]]];
      first [rewrite L3 | rewrite L4 | idtac]; assumption
  end.
Qed.

(** ** The accumulator [sum_sq_grad] never decreases *)

Lemma addcmul_grows t g i :
  (length t <= length g)%nat -> nth i t 0 <= nth i (addcmul t 1 g g) 0.
Proof.
  intros Hl; destruct (Nat.lt_ge_cases i (length t)) as [Hi|Hi].
  - unfold addcmul; nth_simpl.
    pose proof (Rle_0_sqr (nth i g 0)); unfold Rsqr in *; lra.
  - rewrite !nth_overflow; [lra | unfold addcmul; len_solve | lia].
Qed.

Lemma add_sparse_grows t es i :
  (forall e, In e es -> 0 <= snd e) -> nth i t 0 <= nth i (add_sparse t 1 es) 0.
Proof.
  revert t; induction es as [|e es IH]; intros t Hes; [simpl; lra|].
  rewrite add_sparse_cons; eapply Rle_trans; [|apply IH; intros; apply Hes; right; assumption].
  rewrite nth_upd; destruct (Nat.eqb (fst e) i); [|lra].
  destruct (Nat.ltb i (length t)); [|lra].
  pose proof (Hes e (or_introl eq_refl)); lra.
Qed.

(** Whatever path a parameter takes, a step that does not raise leaves each
    coordinate of [sum_sq_grad] at least where it was. *)
Theorem step_slot_sum_grows grp nb nns s s' g st :
  grad s = Some g -> state s = Some st -> wf_state (param s) st ->
  step_slot grp nb nns s = (s', None) ->
  exists st', state s' = Some st' /\ forall i, nth i (sum st) 0 <= nth i (sum st') 0.
Proof.
  intros Hg Hs [Hsl [Hal Hz]].
  unfold step_slot; rewrite Hg, Hs.
  destruct (Req_b (weight_decay grp) 0); destruct g as [t|n es];
  try (match goal with |- context [grad_fits ?x ?y] => destruct (grad_fits x y) eqn:Hf end);
  try (match goal with |- context [Req_b (1 + ?x) 0] => destruct (Req_b (1 + x) 0) end);
  destruct (l1_eligible nb nns (l1_C grp) (shape (param s))) as [[|]|e];
  cbn [negb]; intros H; apply pair_equal_spec in H as [<- He]; try discriminate He;
  cbn [state]; eexists; split; try reflexivity; intros i;
  unfold l1_update, sparse_update, dense_update; cbn [snd sum];
  first
    [ apply add_sparse_grows; intros e Hin; apply in_map_iff in Hin as [e' [<- _]];
      cbn [snd]; apply pow2_ge_0
    | apply addcmul_grows; cbn [grad_fits grad_value] in *;
      try apply Nat.eqb_eq in Hf;
      try (apply andb_true_iff in Hf as [Hf _]; apply Nat.eqb_eq in Hf);
      unfold add; len_solve ].
Qed.

(** ** Size and direction of a dense step *)

Lemma adagrad_coord clr s g :
  0 <= s ->
  let d := - clr * g / (sqrt (s + 1 * g * g) + eps) in
  Rabs d <= Rabs clr
  /\ (0 < clr -> (0 < g -> d < 0) /\ (g < 0 -> 0 < d))
  /\ (g = 0 -> d = 0).
Proof.
  intros Hs d.
  set (D := sqrt (s + 1 * g * g) + eps).
  assert (HD : 0 < D) by apply sqrt_eps_pos.
  assert (Hg : Rabs g <= sqrt (s + 1 * g * g)).
  { rewrite <- sqrt_Rsqr_abs; apply sqrt_le_1_alt; unfold Rsqr.
    pose proof (Rle_0_sqr g); unfold Rsqr in *; lra. }
  assert (HgD : Rabs g < D) by (unfold D, eps; lra).
  assert (HiD : 0 < / D) by (apply Rinv_0_lt_compat; exact HD).
  assert (HDi : D * / D = 1) by (field; lra).
  split; [|split].
  - unfold d; fold D; unfold Rdiv.
    rewrite !Rabs_mult, Rabs_Ropp, (Rabs_pos_eq (/ D)) by lra.
    pose proof (Rabs_pos clr); pose proof (Rabs_pos g).
    assert (H1 : Rabs g * / D <= 1).
    { rewrite <- HDi; apply Rmult_le_compat_r; lra. }
    rewrite Rmult_assoc; rewrite <- (Rmult_1_r (Rabs clr)) at 2.
    apply Rmult_le_compat_l; lra.
  - intros Hc; unfold d; fold D; unfold Rdiv; split; intros Hg0.
    + assert (0 < clr * g * / D) by (apply Rmult_lt_0_compat; [nra | lra]); lra.
    + assert (0 < clr * - g * / D) by (apply Rmult_lt_0_compat; [nra | lra]); lra.
  - intros ->; unfold d; fold D; unfold Rdiv; ring.
Qed.

(** On the dense path ([weight_decay = 0], the test of line 83 false), with
    a non-negative [sum_sq_grad], every coordinate of the parameter moves by
    at most [|clr|]; for [clr > 0] it moves against the sign of its gradient
    coordinate, and a zero gradient coordinate leaves it in place. *)
Theorem dense_step_bounded grp nb nns p t st :
  weight_decay grp = 0 ->
  l1_eligible nb nns (l1_C grp) (shape p) = Ok false ->
  length t = length (data p) -> wf_state p st ->
  (forall i, 0 <= nth i (sum st) 0) ->
  1 + (INR (S (step_count st)) - 1) * lr_decay grp <> 0 ->
  let k := S (step_count st) in
  let clr := lr grp / (1 + (INR k - 1) * lr_decay grp) in
  let r := step_slot grp nb nns (mkSlot p (Some (Dense t)) (Some st)) in
  snd r = None
  /\ forall i, (i < length (data p))%nat ->
     let d := nth i (data (param (fst r))) 0 - nth i (data p) 0 in
     Rabs d <= Rabs clr
     /\ (0 < clr -> (0 < nth i t 0 -> d < 0) /\ (nth i t 0 < 0 -> 0 < d))
     /\ (nth i t 0 = 0 -> d = 0).
Proof.
  intros Hwd Hel Ht [Hsl _] Hpos Hd k clr r.
  assert (Hfit : grad_fits (Dense t) p = true) by (simpl; rewrite Ht; apply Nat.eqb_refl).
  assert (Er : r = (mkSlot (mkParam (shape p) (fst (dense_update clr k st (data p) t)))
                      (Some (Dense t)) (Some (snd (dense_update clr k st (data p) t))), None)).
  { unfold r, step_slot; cbn [grad state param].
    rewrite Hwd, Req_b_true, Hfit; cbn [negb]; rewrite (Req_b_false _ _ Hd), Hel; reflexivity. }
  rewrite Er; cbn [fst snd param data]; split; [reflexivity|].
  intros i Hi.
  set (d := nth i (fst (dense_update clr k st (data p) t)) 0 - nth i (data p) 0).
  assert (Ed : d = - clr * nth i t 0 / (sqrt (nth i (sum st) 0 + 1 * nth i t 0 * nth i t 0) + eps)).
  { unfold d, dense_update, addcdiv, addcmul; cbn [fst]; nth_simpl; ring. }
  rewrite Ed; apply adagrad_coord, Hpos.
Qed.

(** ** The L1 path sets small averages to zero *)

(** On the L1 path ([weight_decay = 0], the test of line 83 true), a
    coordinate whose running average gradient [g_bar] has [|g_bar| <= l1_C]
    becomes exactly 0; for [clr > 0] and [l1_C >= 0] any other coordinate
    takes the sign opposite to [g_bar]. *)
Theorem l1_step_zeroes_small grp nb nns p t st :
  weight_decay grp = 0 ->
  l1_eligible nb nns (l1_C grp) (shape p) = Ok true ->
  length t = length (data p) -> wf_state p st ->
  1 + (INR (S (step_count st)) - 1) * lr_decay grp <> 0 ->
  let k := S (step_count st) in
  let clr := lr grp / (1 + (INR k - 1) * lr_decay grp) in
  let r := step_slot grp nb nns (mkSlot p (Some (Dense t)) (Some st)) in
  snd r = None
  /\ forall i, (i < length (data p))%nat ->
     let g_bar := (nth i (avg st) 0 + nth i t 0) / INR k in
     let x := nth i (data (param (fst r))) 0 in
     (Rabs g_bar <= l1_C grp -> x = 0)
     /\ (0 < clr -> 0 <= l1_C grp ->
         (l1_C grp < g_bar -> x < 0) /\ (g_bar < - l1_C grp -> 0 < x)).
Proof.
  intros Hwd Hel Hgl [Hsl [Hal Hz]] Hd k clr r.
  assert (Hfit : grad_fits (Dense t) p = true) by (simpl; rewrite Hgl; apply Nat.eqb_refl).
  set (sum' := map2 (fun s x => s + x * x) (sum st) t).
  set (avg' := map2 (fun a x => a + x) (avg st) t).
  assert (Er : r = (mkSlot (mkParam (shape p) (spec_l1_value clr (l1_C grp) k sum' avg'))
                      (Some (Dense t)) (Some (mkState k sum' avg' (zeros st))), None)).
  { unfold r, step_slot; cbn [grad state param].
    rewrite Hwd, Req_b_true, Hfit; cbn [negb]; rewrite (Req_b_false _ _ Hd), Hel.
    rewrite (l1_update_eq _ _ _ st t (length (data p)) Hgl Hsl Hal Hz).
    reflexivity. }
  rewrite Er; cbn [fst snd param data]; split; [reflexivity|].
  intros i Hi.
  set (g_bar := (nth i (avg st) 0 + nth i t 0) / INR k).
  set (x := nth i (spec_l1_value clr (l1_C grp) k sum' avg') 0).
  assert (Hk : 0 < INR k) by (apply lt_0_INR; unfold k; lia).
  assert (Ex : x = sign (- g_bar) * (clr * INR k / (sqrt (nth i sum' 0) + 1e-10))
                   * Rmax (Rabs g_bar - l1_C grp) 0).
  { unfold x, spec_l1_value, g_bar, sum', avg'; nth_simpl; reflexivity. }
  assert (HA : 0 < sqrt (nth i sum' 0) + 1e-10) by apply sqrt_eps_pos.
  rewrite Ex; split.
  - intros Hs; rewrite Rmax_right by lra; ring.
  - intros Hc Hl; assert (Hq : 0 < clr * INR k / (sqrt (nth i sum' 0) + 1e-10)).
    { unfold Rdiv; apply Rmult_lt_0_compat; [nra | apply Rinv_0_lt_compat; lra]. }
    split; intros Hb.
    + rewrite Rabs_pos_eq by lra; rewrite Rmax_left by lra.
      unfold sign; destruct (Rlt_dec (- g_bar) 0); [|lra]; nra.
    + rewrite Rabs_left by lra; rewrite Rmax_left by lra.
      unfold sign; destruct (Rlt_dec (- g_bar) 0); [lra|].
      destruct (Rlt_dec 0 (- g_bar)); [|lra]; nra.
Qed.

(** ** The order of sparse gradient entries does not matter *)

Lemma sum_at_perm i es es' : Permutation es es' -> sum_at i es = sum_at i es'.
Proof.
  unfold sum_at; induction 1; simpl; try congruence;
    try (rewrite IHPermutation; reflexivity).
  match goal with
  | |- (if fst ?a =? i then _ else _) = (if fst ?b =? i then _ else _) =>
      destruct (fst a =? i), (fst b =? i); cbv beta iota; ring
  end.
Qed.

Lemma existsb_perm (f : nat * R -> bool) es es' :
  Permutation es es' -> existsb f es = existsb f es'.
Proof.
  induction 1; simpl; try congruence.
  destruct (f x), (f y); reflexivity.
Qed.

Lemma forallb_perm (f : nat * R -> bool) es es' :
  Permutation es es' -> forallb f es = forallb f es'.
Proof.
  induction 1; simpl; try congruence.
  destruct (f x), (f y); reflexivity.
Qed.

Lemma coalesce_perm n es es' : Permutation es es' -> coalesce n es = coalesce n es'.
Proof.
  intros H; unfold coalesce; apply flat_map_ext; intros i.
  rewrite (existsb_perm _ _ _ H), (sum_at_perm i _ _ H); reflexivity.
Qed.

Lemma to_dense_perm n es es' : Permutation es es' -> to_dense n es = to_dense n es'.
Proof.
  intros H; unfold to_dense; apply map_ext; intros i; apply sum_at_perm, H.
Qed.

(** Listing the entries of a sparse gradient in another order (with the
    same duplicates) changes neither the error, nor the parameter, nor its
    state after the step: [coalesce] and [to_dense] see only the sums per
    index. *)
Theorem sparse_grad_order_irrelevant grp nb nns p n es es' st :
  Permutation es es' ->
  let r := step_slot grp nb nns (mkSlot p (Some (Sparse n es)) st) in
  let r' := step_slot grp nb nns (mkSlot p (Some (Sparse n es')) st) in
  snd r = snd r' /\ param (fst r) = param (fst r') /\ state (fst r) = state (fst r').
Proof.
  intros H r r'; unfold r, r', step_slot; cbn [grad state param].
  destruct st as [st|]; [|repeat split; reflexivity].
  assert (Hf : grad_fits (Sparse n es) p = grad_fits (Sparse n es') p)
    by (simpl; rewrite (forallb_perm _ _ _ H); reflexivity).
  rewrite Hf.
  destruct (Req_b (weight_decay grp) 0); cbv beta iota zeta; [|repeat split; reflexivity].
  unfold sparse_update; cbn [grad_value].
  rewrite (coalesce_perm n _ _ H), (to_dense_perm n _ _ H).
  destruct (grad_fits (Sparse n es') p); cbn [negb]; [|repeat split; reflexivity].
  destruct (Req_b (1 + (INR (S (step_count st)) - 1) * lr_decay grp) 0);
    [repeat split; reflexivity|].
  destruct (l1_eligible nb nns (l1_C grp) (shape p)) as [[|]|e]; repeat split; reflexivity.
Qed.

(** ** Errors raised by a single parameter *)

(** A scalar parameter (shape [[]]) in a group with [l1_C <> 0] and
    [weight_decay = 0], whose divisor at line 82 is non-zero, raises
    [IndexError] at [p.data.size(0)] (line 83) when [no_bias_l1] is set,
    after its step count went up and before anything else changes; with
    [no_bias_l1 = False] and a dense gradient of its size the same parameter
    takes the L1 update without error. *)
Theorem step_slot_error_edges grp nns nns' p g t st :
  shape p = [] -> l1_C grp <> 0 -> weight_decay grp = 0 ->
  1 + (INR (S (step_count st)) - 1) * lr_decay grp <> 0 ->
  (grad_fits g p = true ->
   step_slot grp true nns (mkSlot p (Some g) (Some st))
   = (mkSlot p (Some g) (Some (mkState (S (step_count st)) (sum st) (avg st) (zeros st))),
      Some IndexError))
  /\ (grad_fits (Dense t) p = true ->
      snd (step_slot grp false nns' (mkSlot p (Some (Dense t)) (Some st))) = None).
Proof.
  intros Hsh Hl1 Hwd Hd; split; intros Hfit; unfold step_slot; cbn [grad state param];
    rewrite Hwd, Req_b_true, Hfit; cbn [negb]; rewrite (Req_b_false _ _ Hd);
    unfold l1_eligible; rewrite Hsh, (Req_b_false _ _ Hl1); reflexivity.
Qed.

(** ** A step succeeds exactly when every parameter's update does *)

Lemma step_ok_iff o :
  snd (step None o) = Ok None
  <-> (forall grp s, In grp (param_groups o) -> In s (params grp) ->
       snd (step_slot grp (no_bias_l1 o) (no_non_singleton_l1 o) s) = None).
Proof.
  unfold step; cbn.
  destruct (step_groups (no_bias_l1 o) (no_non_singleton_l1 o) (param_groups o))
    as [gs' [e|]] eqn:E; cbn; split.
  - discriminate.
  - intros Hall; exfalso.
    assert (Hok : Forall (group_ok (no_bias_l1 o) (no_non_singleton_l1 o)) (param_groups o)).
    { apply Forall_forall; intros grp Hg; apply Forall_forall; intros s Hs; apply Hall; auto. }
    rewrite (step_groups_all_ok _ _ _ Hok) in E; discriminate.
  - intros _ grp s Hg Hs.
    apply step_groups_none in E.
    rewrite Forall_forall in E; specialize (E grp Hg); unfold group_ok in E.
    rewrite Forall_forall in E; apply (E s Hs).
  - reflexivity.
Qed.

(** [step()] without a closure raises exactly when the update of some
    parameter raises; otherwise it returns [None] and every group is the
    group with each of its parameters updated on its own, with the group's
    settings. *)
Theorem step_ok_per_param o :
  (snd (step None o) = Ok None
   <-> (forall grp s, In grp (param_groups o) -> In s (params grp) ->
        snd (step_slot grp (no_bias_l1 o) (no_non_singleton_l1 o) s) = None))
  /\ (snd (step None o) = Ok None ->
      fst (step None o) =
      mkAdagrad (map (stepped_group (no_bias_l1 o) (no_non_singleton_l1 o)) (param_groups o))
                (no_bias_l1 o) (no_non_singleton_l1 o)).
Proof.
  split; [apply step_ok_iff|].
  intros H; pose proof (proj1 (step_ok_iff o) H) as Hall.
  assert (Hok : Forall (group_ok (no_bias_l1 o) (no_non_singleton_l1 o)) (param_groups o)).
  { apply Forall_forall; intros grp Hg; apply Forall_forall; intros s Hs; apply Hall; auto. }
  unfold step; cbn; rewrite (step_groups_all_ok _ _ _ Hok); reflexivity.
Qed.

(** ** The optimizer as constructed *)

Lemma reset_slot_steps_ok grp nb nns s :
  weight_decay grp = 0 -> l1_C grp = 0 ->
  match grad s with None => True | Some g => grad_fits g (param s) = true end ->
  snd (step_slot grp nb nns (reset_slot s)) = None.
Proof.
  intros Hwd Hl1 Hg; unfold reset_slot, step_slot; cbn [grad state param].
  destruct (grad s) as [g|]; [|reflexivity].
  rewrite Hwd, Req_b_true, Hg; cbn [negb step_count]; den_nonzero.
  unfold l1_eligible; rewrite Hl1, Req_b_true.
  destruct g; reflexivity.
Qed.

(** With the default [weight_decay = 0] and [l1_C = 0] of [__init__], the
    first [step()] of a new optimizer raises nothing as long as each
    gradient present fits its parameter, whatever the parameters' shapes
    and the L1 flags. *)
Theorem make_adagrad_first_step_ok ps lr_ ld nb nns :
  (forall s, In s ps -> match grad s with None => True | Some g => grad_fits g (param s) = true end) ->
  snd (step None (make_adagrad ps lr_ ld 0 0 nb nns)) = Ok None.
Proof.
  intros Hps; apply step_ok_iff; cbn.
  intros grp s [<-|[]] Hs; unfold set_params in Hs; cbn [params] in Hs.
  apply in_map_iff in Hs as [s0 [<- Hs0]].
  apply reset_slot_steps_ok; try reflexivity; apply Hps, Hs0.
Qed.

(** ** A zero divisor at line 82 *)

(** When [1 + (state['step'] - 1) * lr_decay] is 0 at line 82, a parameter
    whose gradient fits it and passes the weight-decay test (no weight decay,
    or a dense gradient) raises [ZeroDivisionError]: its step count has gone
    up, and its value, [sum] and [avg] are as before, whatever the L1
    settings. *)
Theorem step_slot_zero_division grp nb nns p g st :
  (weight_decay grp = 0 \/ exists t, g = Dense t) ->
  grad_fits g p = true ->
  1 + (INR (S (step_count st)) - 1) * lr_decay grp = 0 ->
  step_slot grp nb nns (mkSlot p (Some g) (Some st))
  = (mkSlot p (Some g) (Some (mkState (S (step_count st)) (sum st) (avg st) (zeros st))),
     Some ZeroDivisionError).
Proof.
  intros Hwd Hfit Hd; unfold step_slot; cbn [grad state param].
  destruct Hwd as [Hwd | [t ->]].
  - rewrite Hwd, Req_b_true, Hfit; cbn [negb]; rewrite Hd, Req_b_true; reflexivity.
  - destruct (Req_b (weight_decay grp) 0); rewrite Hfit; cbn [negb];
      rewrite Hd, Req_b_true; reflexivity.
Qed.

(** ** Concrete instances *)

Definition ex_p3 : Param := mkParam [3%nat] [1; 2; 3].
Definition ex_st3 : OptState := mkState 0 [0; 0; 0] [0; 0; 0] [0; 0; 0].
Definition ex_t3 : tensor := [1; -1; 0].
Definition ex_slot3 : Slot := mkSlot ex_p3 (Some (Dense ex_t3)) (Some ex_st3).

Lemma ex_st3_wf : wf_state ex_p3 ex_st3.
Proof. repeat split. Qed.

Lemma dense_zero_group_ok grp nb nns p t st :
  weight_decay grp = 0 -> l1_C grp = 0 -> length t = length (data p) ->
  1 + (INR (S (step_count st)) - 1) * lr_decay grp <> 0 ->
  step_slot grp nb nns (mkSlot p (Some (Dense t)) (Some st))
  = (fst (step_slot grp nb nns (mkSlot p (Some (Dense t)) (Some st))), None).
Proof.
  intros Hwd Hl1 Ht Hd.
  assert (Hfit : grad_fits (Dense t) p = true) by (simpl; rewrite Ht; apply Nat.eqb_refl).
  unfold step_slot; cbn [grad state param].
  rewrite Hwd, Req_b_true, Hfit; cbn [negb]; rewrite (Req_b_false _ _ Hd).
  unfold l1_eligible; rewrite Hl1, Req_b_true; reflexivity.
Qed.

Lemma ex_slot3_ok :
  step_slot ex_plain_group true true ex_slot3
  = (fst (step_slot ex_plain_group true true ex_slot3), None).
Proof. apply dense_zero_group_ok; try reflexivity; simpl; lra. Qed.

Lemma ex_plain_clr : 0 < 1 / 10 / (1 + (INR 1 - 1) * 0).
Proof. simpl INR; replace (1 / 10 / (1 + (1 - 1) * 0)) with (1 / 10) by field; lra. Qed.

Lemma step_slot_keeps_shapes_witness :
  snd (step_slot ex_plain_group true true ex_slot3) = None
  /\ length (data (param (fst (step_slot ex_plain_group true true ex_slot3)))) = 3%nat.
Proof.
  split; [rewrite ex_slot3_ok; reflexivity|].
  destruct (step_slot_keeps_shapes ex_plain_group true true ex_slot3 _ (Dense ex_t3) ex_st3
              eq_refl eq_refl ex_st3_wf ex_slot3_ok) as [_ [H _]].
  exact H.
Defined.

Lemma step_slot_sum_grows_witness :
  exists st', state (fst (step_slot ex_plain_group true true ex_slot3)) = Some st'
              /\ forall i, nth i (sum ex_st3) 0 <= nth i (sum st') 0.
Proof.
  exact (step_slot_sum_grows ex_plain_group true true ex_slot3 _ (Dense ex_t3) ex_st3
           eq_refl eq_refl ex_st3_wf ex_slot3_ok).
Defined.

Lemma dense_step_bounded_witness :
  let x := data (param (fst (step_slot ex_plain_group true true ex_slot3))) in
  nth 0 x 0 < 1 /\ 2 < nth 1 x 0 /\ nth 2 x 0 = 3.
Proof.
  intros x.
  assert (Hel : l1_eligible true true (l1_C ex_plain_group) (shape ex_p3) = Ok false)
    by (unfold l1_eligible; cbn [l1_C ex_plain_group]; rewrite Req_b_true; reflexivity).
  assert (Hpos : forall i, 0 <= nth i (sum ex_st3) 0)
    by (intros [|[|[|i]]]; simpl; try lra; destruct i; simpl; lra).
  destruct (dense_step_bounded ex_plain_group true true ex_p3 ex_t3 ex_st3
              eq_refl Hel eq_refl ex_st3_wf Hpos ltac:(simpl; lra)) as [_ H].
  pose proof ex_plain_clr as Hc.
  destruct (H 0%nat ltac:(simpl; lia)) as [_ [H0 _]].
  destruct (H 1%nat ltac:(simpl; lia)) as [_ [H1 _]].
  destruct (H 2%nat ltac:(simpl; lia)) as [_ [_ H2]].
  destruct (H0 Hc) as [H0' _]; destruct (H1 Hc) as [_ H1'].
  specialize (H0' ltac:(simpl; lra)); specialize (H1' ltac:(simpl; lra)).
  specialize (H2 ltac:(reflexivity)).
  change (nth 0 (data ex_p3) 0) with 1 in H0'.
  change (nth 1 (data ex_p3) 0) with 2 in H1'.
  change (nth 2 (data ex_p3) 0) with 3 in H2.
  unfold x, ex_slot3; split; [lra | split; lra].
Defined.

Definition ex_g3 : tensor := [1 / 4; 1; -1].

Lemma l1_step_zeroes_small_witness :
  let x := data (param (fst (step_slot ex_l1_group false true
                                 (mkSlot ex_p3 (Some (Dense ex_g3)) (Some ex_st3))))) in
  nth 0 x 0 = 0 /\ nth 1 x 0 < 0 /\ 0 < nth 2 x 0.
Proof.
  intros x.
  assert (Hel : l1_eligible false true (l1_C ex_l1_group) (shape ex_p3) = Ok true).
  { unfold l1_eligible; cbn [l1_C ex_l1_group]; rewrite Req_b_false by lra; reflexivity. }
  destruct (l1_step_zeroes_small ex_l1_group false true ex_p3 ex_g3 ex_st3
              eq_refl Hel eq_refl ex_st3_wf ltac:(simpl; lra)) as [_ H].
  pose proof ex_plain_clr as Hc.
  assert (Hl : 0 <= l1_C ex_l1_group) by (cbn; lra).
  destruct (H 0%nat ltac:(simpl; lia)) as [H0 _].
  destruct (H 1%nat ltac:(simpl; lia)) as [_ H1].
  destruct (H 2%nat ltac:(simpl; lia)) as [_ H2].
  destruct (H1 Hc Hl) as [H1' _]; destruct (H2 Hc Hl) as [_ H2'].
  specialize (H0 ltac:(simpl; rewrite Rabs_pos_eq; lra)).
  specialize (H1' ltac:(simpl; lra)); specialize (H2' ltac:(simpl; lra)).
  unfold x; split; [exact H0 | split; assumption].
Defined.

Lemma sparse_grad_order_irrelevant_witness :
  let r := step_slot ex_plain_group true true
             (mkSlot ex_p3 (Some (Sparse 3 [(0%nat, 1); (2%nat, 3); (0%nat, 2)])) (Some ex_st3)) in
  let r' := step_slot ex_plain_group true true
             (mkSlot ex_p3 (Some (Sparse 3 [(2%nat, 3); (0%nat, 2); (0%nat, 1)])) (Some ex_st3)) in
  snd r = snd r' /\ param (fst r) = param (fst r') /\ state (fst r) = state (fst r').
Proof.
  exact (sparse_grad_order_irrelevant ex_plain_group true true ex_p3 3
           [(0%nat, 1); (2%nat, 3); (0%nat, 2)] [(2%nat, 3); (0%nat, 2); (0%nat, 1)]
           (Some ex_st3) (Permutation_cons_append _ _)).
Defined.

Definition ex_init_params : list Slot :=
  [mkSlot ex_p3 (Some (Dense ex_t3)) None;
   mkSlot (mkParam [] [5]) None None;
   mkSlot ex_p3 (Some (Sparse 3 [(0%nat, 1); (2%nat, 2); (0%nat, 4)])) None].

Lemma make_adagrad_first_step_ok_witness :
  snd (step None (make_adagrad ex_init_params (1 / 100) 0 0 0 true true)) = Ok None.
Proof.
  apply make_adagrad_first_step_ok.
  intros s [<-|[<-|[<-|[]]]]; reflexivity.
Defined.

Definition ex_scalar : Param := mkParam [] [5].
Definition ex_st1 : OptState := mkState 0 [0] [0] [0].

Lemma step_slot_error_edges_witness :
  snd (step_slot ex_l1_group true true (mkSlot ex_scalar (Some (Dense [1])) (Some ex_st1)))
    = Some IndexError
  /\ snd (step_slot ex_l1_group false true (mkSlot ex_scalar (Some (Dense [1])) (Some ex_st1)))
    = None.
Proof.
  assert (Hl1 : l1_C ex_l1_group <> 0) by (cbn; lra).
  destruct (step_slot_error_edges ex_l1_group true true ex_scalar (Dense [1]) [1] ex_st1
              eq_refl Hl1 eq_refl ltac:(simpl; lra)) as [H1 H2].
  rewrite (H1 eq_refl); split; [reflexivity | exact (H2 eq_refl)].
Defined.

Definition ex_decay_group : Group := mkGroup (1/10) (-1) (1/100) (1/2) [].
Definition ex_st_once : OptState := mkState 1 [1; 1; 1] [1; 1; 1] [0; 0; 0].

Lemma step_slot_zero_division_witness :
  snd (step_slot ex_decay_group true true (mkSlot ex_p3 (Some (Dense ex_t3)) (Some ex_st_once)))
  = Some ZeroDivisionError.
Proof.
  rewrite (step_slot_zero_division ex_decay_group true true ex_p3 (Dense ex_t3) ex_st_once
             (or_intror (ex_intro _ ex_t3 eq_refl)) eq_refl ltac:(simpl; lra)).
  reflexivity.
Defined.

(** ** A step with no gradient at all *)

Lemma stepped_no_grad grp nb nns ss :
  (forall s, In s ss -> grad s = None) -> stepped grp nb nns ss = ss.
Proof.
  induction ss as [|s ss IH]; intros H; [reflexivity|].
  unfold stepped; cbn [map]; fold (stepped grp nb nns ss).
  rewrite IH by (intros; apply H; right; assumption).
  unfold step_slot; rewrite (H s (or_introl eq_refl)); reflexivity.
Qed.

(** When no parameter has a gradient, [step()] returns [None] and leaves the
    optimizer as it was, parameters without state included. *)
Theorem step_without_grads o :
  (forall grp s, In grp (param_groups o) -> In s (params grp) -> grad s = None) ->
  step None o = (o, Ok None).
Proof.
  intros H.
  assert (Hok : Forall (group_ok (no_bias_l1 o) (no_non_singleton_l1 o)) (param_groups o)).
  { apply Forall_forall; intros grp Hg; apply Forall_forall; intros s Hs.
    unfold slot_ok, step_slot; rewrite (H grp s Hg Hs); reflexivity. }
  unfold step; cbn; rewrite (step_groups_all_ok _ _ _ Hok).
  assert (E : map (stepped_group (no_bias_l1 o) (no_non_singleton_l1 o)) (param_groups o)
              = param_groups o).
  { rewrite <- map_id; apply map_ext_in; intros grp Hg.
    unfold stepped_group; rewrite stepped_no_grad by (intros; eapply H; eauto).
    destruct grp; reflexivity. }
  rewrite E; destruct o; reflexivity.
Qed.

Definition ex_idle_opt : Adagrad :=
  mkAdagrad [mkGroup (1 / 100) 0 0 (1 / 2)
               [mkSlot ex_p3 None None; mkSlot ex_scalar None (Some ex_st1)]] true true.

Lemma step_without_grads_witness : step None ex_idle_opt = (ex_idle_opt, Ok None).
Proof.
  apply step_without_grads.
  intros grp s [<-|[]] [<-|[<-|[]]]; reflexivity.
Defined.
